(** * CricClubs AI back end: the match scoring engine

    A shallow embedding of [Back-end/models.py], [Back-end/schemas.py],
    [Back-end/crud.py] and the match, toss and scoring endpoints of
    [Back-end/main.py].

    The SQL tables are lists of rows in insertion order.  Integer values are
    [Z]: Python integers do not wrap.  A nullable column is an [option].
    Primary keys come from a per-table sequence, as with PostgreSQL serial
    columns.  [crud.py] works on a SQLAlchemy session: objects are mutated
    in memory and written by [db.commit()], which checks the foreign keys of
    [models.py]; a function that returns or raises before its commit leaves
    the stored tables as they were.  The commit of [record_delivery] writes
    a score that grows with the deliveries and a payload that is not
    bounded: it also checks the integers it writes against the 32-bit range
    of the [Integer] columns.  The other commits write keys only, which are
    checked as foreign keys. *)

From Stdlib Require Import ZArith List Bool String Lia.
From Stdlib Require Import Sorted.
Import ListNotations.
Open Scope Z_scope.

(** ** models.py *)

Inductive MatchStatus := SCHEDULED | LIVE | COMPLETED | ABANDONED.

Inductive TossDecision := BAT | FIELD.

Definition MatchStatus_eqb (a b : MatchStatus) : bool :=
  match a, b with
  | SCHEDULED, SCHEDULED | LIVE, LIVE
  | COMPLETED, COMPLETED | ABANDONED, ABANDONED => true
  | _, _ => false
  end.

Definition TossDecision_eqb (a b : TossDecision) : bool :=
  match a, b with
  | BAT, BAT | FIELD, FIELD => true
  | _, _ => false
  end.

Module Match.
Record t := mk {
  id : Z;
  match_date : Z;
  venue : option string;
  status : MatchStatus;
  tournament_id : option Z;
  team1_id : Z;
  team2_id : Z;
  toss_winner_id : option Z;
  toss_decision : option TossDecision;
  winner_id : option Z
}.

Definition set_status (s : MatchStatus) (m : t) : t :=
  mk (id m) (match_date m) (venue m) s (tournament_id m) (team1_id m)
     (team2_id m) (toss_winner_id m) (toss_decision m) (winner_id m).

Definition set_winner_id (w : option Z) (m : t) : t :=
  mk (id m) (match_date m) (venue m) (status m) (tournament_id m)
     (team1_id m) (team2_id m) (toss_winner_id m) (toss_decision m) w.

Definition set_toss (w : option Z) (d : option TossDecision) (m : t) : t :=
  mk (id m) (match_date m) (venue m) (status m) (tournament_id m)
     (team1_id m) (team2_id m) w d (winner_id m).
End Match.

Module Inning.
Record t := mk {
  id : Z;
  match_id : Z;
  batting_team_id : Z;
  bowling_team_id : Z;
  total_runs : Z;
  wickets : Z;
  overs_bowled : Z;
  balls_bowled : Z;
  is_completed : bool
}.

Definition set_total_runs (v : Z) (i : t) : t :=
  mk (id i) (match_id i) (batting_team_id i) (bowling_team_id i) v
     (wickets i) (overs_bowled i) (balls_bowled i) (is_completed i).

Definition set_wickets (v : Z) (i : t) : t :=
  mk (id i) (match_id i) (batting_team_id i) (bowling_team_id i)
     (total_runs i) v (overs_bowled i) (balls_bowled i) (is_completed i).

Definition set_overs_bowled (v : Z) (i : t) : t :=
  mk (id i) (match_id i) (batting_team_id i) (bowling_team_id i)
     (total_runs i) (wickets i) v (balls_bowled i) (is_completed i).

Definition set_balls_bowled (v : Z) (i : t) : t :=
  mk (id i) (match_id i) (batting_team_id i) (bowling_team_id i)
     (total_runs i) (wickets i) (overs_bowled i) v (is_completed i).

Definition set_is_completed (v : bool) (i : t) : t :=
  mk (id i) (match_id i) (batting_team_id i) (bowling_team_id i)
     (total_runs i) (wickets i) (overs_bowled i) (balls_bowled i) v.
End Inning.

Module Delivery.
Record t := mk {
  id : Z;
  inning_id : Z;
  batsman_id : Z;
  bowler_id : Z;
  runs_scored : Z;
  is_extra : bool;
  extra_type : option string;
  is_wicket : bool;
  wicket_type : option string
}.
End Delivery.

(** ** schemas.py: the request payloads *)

Module MatchCreate.
Record t := mk {
  match_date : Z;
  venue : option string;
  team1_id : Z;
  team2_id : Z
}.
End MatchCreate.

Module TossData.
Record t := mk {
  toss_winner_id : Z;
  decision : TossDecision
}.
End TossData.

Module DeliveryCreate.
Record t := mk {
  inning_id : Z;
  batsman_id : Z;
  bowler_id : Z;
  runs_scored : Z;
  is_wicket : bool;
  is_extra : bool;
  wicket_type : option string
}.
End DeliveryCreate.

(** ** The database

    [teams], [players] and [tournaments] keep the primary keys of the roster
    tables: the scoring code reads nothing else of them, and they decide
    whether the foreign keys declared in [models.py] hold at commit. *)

Record DB := mkDB {
  teams : list Z;
  players : list Z;
  tournaments : list Z;
  matches : list Match.t;
  innings : list Inning.t;
  deliveries : list Delivery.t;
  match_seq : Z;
  inning_seq : Z;
  delivery_seq : Z
}.

Definition empty_db : DB := mkDB [] [] [] [] [] [] 1 1 1.

(** What a Python call does: it returns a value, with the tables as the
    session left them, or it raises and nothing was committed. *)

Inductive exn :=
  | AttributeError
  | IndexError
  | IntegrityError
  | DataError
  | HTTPException (status_code : Z).

Inductive result (A : Type) :=
  | Return (a : A) (db : DB)
  | Raise (e : exn).
Arguments Return {A} a db.
Arguments Raise {A} e.

(** The stored tables after a call made on [db]. *)
Definition db_after {A : Type} (db : DB) (r : result A) : DB :=
  match r with
  | Return _ db' => db'
  | Raise _ => db
  end.

Definition mem (x : Z) (l : list Z) : bool := existsb (Z.eqb x) l.

(** Python truthiness of a nullable integer column: [None] and [0] are false. *)
Definition truthy (o : option Z) : bool :=
  match o with
  | Some z => negb (z =? 0)
  | None => false
  end.

(** [ForeignKey(...)] on a nullable column. *)
Definition fk_opt (o : option Z) (keys : list Z) : bool :=
  match o with
  | Some z => mem z keys
  | None => true
  end.

Definition option_Z_eqb (a b : option Z) : bool :=
  match a, b with
  | Some x, Some y => x =? y
  | None, None => true
  | _, _ => false
  end.

(** A foreign key is checked when the commit writes a value that differs
    from the stored one. *)
Definition fk_written (old new : option Z) (keys : list Z) : bool :=
  option_Z_eqb old new || fk_opt new keys.

(** The range of an [Integer] column, PostgreSQL's 32-bit [integer]: a
    statement that writes a value outside it fails with [DataError]. *)
Definition int4 (z : Z) : bool :=
  (-2147483648 <=? z) && (z <=? 2147483647).

(** The counters of an inning row, which [record_delivery] updates. *)
Definition counters_fit (i : Inning.t) : bool :=
  int4 (Inning.total_runs i) && int4 (Inning.wickets i)
  && int4 (Inning.overs_bowled i) && int4 (Inning.balls_bowled i).

(** The integers of a delivery row. *)
Definition delivery_fits (d : Delivery.t) : bool :=
  int4 (Delivery.id d) && int4 (Delivery.inning_id d)
  && int4 (Delivery.batsman_id d) && int4 (Delivery.bowler_id d)
  && int4 (Delivery.runs_scored d).

(** UPDATE of the row whose primary key is that of [r]. *)
Definition update_match (r : Match.t) (l : list Match.t) : list Match.t :=
  map (fun x => if Match.id x =? Match.id r then r else x) l.

Definition update_inning (r : Inning.t) (l : list Inning.t) : list Inning.t :=
  map (fun x => if Inning.id x =? Inning.id r then r else x) l.

(** [match.innings]: the relationship loads the innings rows of the match. *)
Definition match_innings (db_innings : list Inning.t) (match_id : Z)
  : list Inning.t :=
  filter (fun i => Inning.match_id i =? match_id) db_innings.

(** [sorted(..., key=lambda i: i.id)]: a stable sort on the id. *)
Fixpoint insert_by_id (i : Inning.t) (l : list Inning.t) : list Inning.t :=
  match l with
  | [] => [i]
  | j :: l' =>
      if Inning.id j <=? Inning.id i then j :: insert_by_id i l'
      else i :: j :: l'
  end.

Definition sorted_by_id (l : list Inning.t) : list Inning.t :=
  fold_left (fun acc i => insert_by_id i acc) l [].

(** ** crud.py *)

Definition create_match (db : DB) (match_ : MatchCreate.t) (tournament_id : Z)
  : result Match.t :=
  let db_match :=
    Match.mk (match_seq db) (MatchCreate.match_date match_)
      (MatchCreate.venue match_) SCHEDULED (Some tournament_id)
      (MatchCreate.team1_id match_) (MatchCreate.team2_id match_)
      None None None in
  (* db.commit() *)
  if mem tournament_id (tournaments db)
     && mem (Match.team1_id db_match) (teams db)
     && mem (Match.team2_id db_match) (teams db)
  then
    Return db_match
      (mkDB (teams db) (players db) (tournaments db)
         (matches db ++ [db_match]) (innings db) (deliveries db)
         (match_seq db + 1) (inning_seq db) (delivery_seq db))
  else Raise IntegrityError.

Definition get_match_by_id (db : DB) (match_id : Z) : option Match.t :=
  find (fun m => Match.id m =? match_id) (matches db).

(** The local variables of [update_match_toss] that fix the batting order. *)
Definition toss_loser_id (db_match : Match.t) (toss_data : TossData.t) : Z :=
  if TossData.toss_winner_id toss_data =? Match.team1_id db_match
  then Match.team2_id db_match else Match.team1_id db_match.

Definition first_batting_team_id (db_match : Match.t) (toss_data : TossData.t)
  : Z :=
  if TossDecision_eqb (TossData.decision toss_data) BAT
  then TossData.toss_winner_id toss_data
  else toss_loser_id db_match toss_data.

Definition first_bowling_team_id (db_match : Match.t) (toss_data : TossData.t)
  : Z :=
  if TossDecision_eqb (TossData.decision toss_data) BAT
  then toss_loser_id db_match toss_data
  else TossData.toss_winner_id toss_data.

Definition update_match_toss (db : DB) (match_id : Z) (toss_data : TossData.t)
  : result (option Match.t) :=
  match get_match_by_id db match_id with
  | None => Return None db
  | Some stored =>
      (* Prevent updating toss if innings have already started *)
      match match_innings (innings db) (Match.id stored) with
      | _ :: _ => Return None db
      | [] =>
          let db_match :=
            Match.set_toss (Some (TossData.toss_winner_id toss_data))
              (Some (TossData.decision toss_data)) stored in
          let inning1 :=
            Inning.mk (inning_seq db) match_id
              (first_batting_team_id db_match toss_data)
              (first_bowling_team_id db_match toss_data) 0 0 0 0 false in
          let inning2 :=
            Inning.mk (inning_seq db + 1) match_id
              (first_bowling_team_id db_match toss_data)
              (first_batting_team_id db_match toss_data) 0 0 0 0 false in
          (* db.commit() *)
          if fk_written (Match.toss_winner_id stored)
               (Match.toss_winner_id db_match) (teams db)
             && mem (Inning.batting_team_id inning1) (teams db)
             && mem (Inning.bowling_team_id inning1) (teams db)
          then
            Return (Some db_match)
              (mkDB (teams db) (players db) (tournaments db)
                 (update_match db_match (matches db))
                 (innings db ++ [inning1; inning2]) (deliveries db)
                 (match_seq db) (inning_seq db + 2) (delivery_seq db))
          else Raise IntegrityError
      end
  end.

(** Steps 3 and 4 of [record_delivery]: score, wickets, balls and overs. *)
Definition update_inning_score (inning : Inning.t) (delivery : DeliveryCreate.t)
  : Inning.t :=
  let inning :=
    Inning.set_total_runs
      (Inning.total_runs inning + DeliveryCreate.runs_scored delivery) inning in
  let inning :=
    if DeliveryCreate.is_extra delivery
    then Inning.set_total_runs (Inning.total_runs inning + 1) inning
    else inning in
  let inning :=
    if DeliveryCreate.is_wicket delivery
    then Inning.set_wickets (Inning.wickets inning + 1) inning
    else inning in
  if negb (DeliveryCreate.is_extra delivery) then
    let inning :=
      Inning.set_balls_bowled (Inning.balls_bowled inning + 1) inning in
    if Inning.balls_bowled inning =? 6 then
      let inning :=
        Inning.set_overs_bowled (Inning.overs_bowled inning + 1) inning in
      Inning.set_balls_bowled 0 inning
    else inning
  else inning.

(** Step 5 of [record_delivery]: the first ball makes the match live. *)
Definition mark_live (match_ : Match.t) : Match.t :=
  if MatchStatus_eqb (Match.status match_) SCHEDULED
  then Match.set_status LIVE match_ else match_.

(** Step 6 of [record_delivery]: end of the inning and of the match.
    [first] is [all_innings[0]]; [inning] and [match_] are the objects as
    steps 3 to 5 left them. *)
Definition check_end (first inning : Inning.t) (match_ : Match.t)
  : Inning.t * Match.t :=
  let is_inning_over :=
    (10 <=? Inning.wickets inning) || (20 <=? Inning.overs_bowled inning) in
  let is_first_inning := Inning.id inning =? Inning.id first in
  let '(is_inning_over, match_) :=
    if negb is_first_inning then
      let first_inning_score := Inning.total_runs first in
      if first_inning_score <? Inning.total_runs inning then
        (true,
         Match.set_status COMPLETED
           (Match.set_winner_id (Some (Inning.batting_team_id inning)) match_))
      else (is_inning_over, match_)
    else (is_inning_over, match_) in
  if is_inning_over then
    let inning := Inning.set_is_completed true inning in
    if negb is_first_inning && negb (truthy (Match.winner_id match_)) then
      let first_inning_score := Inning.total_runs first in
      let match_ :=
        if first_inning_score <? Inning.total_runs inning then
          Match.set_winner_id (Some (Inning.batting_team_id inning)) match_
        else if Inning.total_runs inning <? first_inning_score then
          Match.set_winner_id (Some (Inning.bowling_team_id inning)) match_
        else match_ in
      (inning, Match.set_status COMPLETED match_)
    else (inning, match_)
  else (inning, match_).

Definition record_delivery (db : DB) (match_id : Z)
    (delivery : DeliveryCreate.t) : result (option Delivery.t) :=
  (* 1. Fetch the inning and the associated match *)
  match find (fun i => Inning.id i =? DeliveryCreate.inning_id delivery)
          (innings db) with
  | None => Return None db
  | Some inning =>
      if negb (Inning.match_id inning =? match_id) then Return None db else
      match get_match_by_id db (Inning.match_id inning) with
      | None => Raise AttributeError
      | Some match_ =>
          (* Prevent scoring in a completed match or inning *)
          if MatchStatus_eqb (Match.status match_) COMPLETED
             || Inning.is_completed inning
          then Return None db else
          (* 2. Create the delivery record *)
          let db_delivery :=
            Delivery.mk (delivery_seq db)
              (DeliveryCreate.inning_id delivery)
              (DeliveryCreate.batsman_id delivery)
              (DeliveryCreate.bowler_id delivery)
              (DeliveryCreate.runs_scored delivery)
              (DeliveryCreate.is_extra delivery)
              None
              (DeliveryCreate.is_wicket delivery)
              (DeliveryCreate.wicket_type delivery) in
          (* 3, 4. Update the inning *)
          let inning := update_inning_score inning delivery in
          (* 5. Update Match Status *)
          let stored := match_ in
          let match_ := mark_live match_ in
          (* 6. Check for end of innings/match *)
          let all_innings :=
            sorted_by_id
              (match_innings (update_inning inning (innings db))
                 (Match.id match_)) in
          match all_innings with
          | [] => Raise IndexError
          | first :: _ =>
              let '(inning, match_) := check_end first inning match_ in
              (* 7. Commit all changes to the database.  The flush sends
                 UPDATE matches, UPDATE innings and INSERT INTO deliveries,
                 parents first; a statement fails on an integer outside its
                 column's range before its foreign keys are looked at *)
              if fk_written (Match.winner_id stored)
                   (Match.winner_id match_) (teams db)
              then
                if counters_fit inning && delivery_fits db_delivery then
                  if mem (Delivery.batsman_id db_delivery) (players db)
                     && mem (Delivery.bowler_id db_delivery) (players db)
                  then
                    Return (Some db_delivery)
                      (mkDB (teams db) (players db) (tournaments db)
                         (update_match match_ (matches db))
                         (update_inning inning (innings db))
                         (deliveries db ++ [db_delivery])
                         (match_seq db) (inning_seq db) (delivery_seq db + 1))
                  else Raise IntegrityError
                else Raise DataError
              else Raise IntegrityError
          end
      end
  end.

(** ** main.py: the toss and scoring endpoints *)

Module Main.
Definition record_toss (db : DB) (match_id : Z) (toss_data : TossData.t)
  : result (option Match.t) :=
  match get_match_by_id db match_id with
  | None => Raise (HTTPException 404)
  | Some db_match =>
      if negb (mem (TossData.toss_winner_id toss_data)
                 [Match.team1_id db_match; Match.team2_id db_match])
      then Raise (HTTPException 400)
      else update_match_toss db match_id toss_data
  end.

Definition record_delivery (db : DB) (match_id : Z)
    (delivery : DeliveryCreate.t) : result (option Match.t) :=
  match record_delivery db match_id delivery with
  | Raise e => Raise e
  | Return None _ => Raise (HTTPException 400)
  | Return (Some _) db' => Return (get_match_by_id db' match_id) db'
  end.
End Main.

(** ** Histories

    The operations that write the scoring tables.  [AddRoster] stands for the
    roster and tournament functions of [crud.py], which only add rows to the
    [teams], [players] and [tournaments] tables.  [SkipIds] stands for the
    sequence values drawn by a commit that failed: a PostgreSQL sequence does
    not give them back. *)

Inductive op :=
  | AddRoster (teams players tournaments : list Z)
  | SkipIds (match_ids inning_ids delivery_ids : nat)
  | CreateMatch (match_ : MatchCreate.t) (tournament_id : Z)
  | Toss (match_id : Z) (toss_data : TossData.t)
  | Score (match_id : Z) (delivery : DeliveryCreate.t).

Definition run_op (db : DB) (o : op) : DB :=
  match o with
  | AddRoster t p r =>
      mkDB (teams db ++ t) (players db ++ p) (tournaments db ++ r)
        (matches db) (innings db) (deliveries db)
        (match_seq db) (inning_seq db) (delivery_seq db)
  | SkipIds m i d =>
      mkDB (teams db) (players db) (tournaments db) (matches db) (innings db)
        (deliveries db) (match_seq db + Z.of_nat m)
        (inning_seq db + Z.of_nat i) (delivery_seq db + Z.of_nat d)
  | CreateMatch m tid => db_after db (create_match db m tid)
  | Toss mid t => db_after db (update_match_toss db mid t)
  | Score mid d => db_after db (record_delivery db mid d)
  end.

Definition run (ops : list op) : DB := fold_left run_op ops empty_db.

Definition reachable (db : DB) : Prop := exists ops, run ops = db.

(** [all_innings[0]] for the match [match_id], when the match has innings. *)
Definition first_inning (db : DB) (match_id : Z) : option Inning.t :=
  hd_error (sorted_by_id (match_innings (innings db) match_id)).

Definition get_inning (db : DB) (inning_id : Z) : option Inning.t :=
  find (fun i => Inning.id i =? inning_id) (innings db).

(** The deliveries recorded against an inning. *)
Definition deliveries_of (db : DB) (inning_id : Z) : list Delivery.t :=
  filter (fun d => Delivery.inning_id d =? inning_id) (deliveries db).

(** ** What a recorded delivery did *)

(** The row that [record_delivery] appends for the payload [d]. *)
Definition delivery_row (db : DB) (d : DeliveryCreate.t) : Delivery.t :=
  Delivery.mk (delivery_seq db) (DeliveryCreate.inning_id d)
    (DeliveryCreate.batsman_id d) (DeliveryCreate.bowler_id d)
    (DeliveryCreate.runs_scored d) (DeliveryCreate.is_extra d) None
    (DeliveryCreate.is_wicket d) (DeliveryCreate.wicket_type d).

(** The inning row that a recorded delivery writes back. *)
Definition scored_inning (first inning : Inning.t) (d : DeliveryCreate.t)
    (match_ : Match.t) : Inning.t :=
  fst (check_end first (update_inning_score inning d) (mark_live match_)).

(** The match row that a recorded delivery writes back. *)
Definition scored_match (first inning : Inning.t) (d : DeliveryCreate.t)
    (match_ : Match.t) : Match.t :=
  snd (check_end first (update_inning_score inning d) (mark_live match_)).

(** The inning is over after this ball: the limits, or a completed chase. *)
Definition inning_over (first inning : Inning.t) : bool :=
  (10 <=? Inning.wickets inning) || (20 <=? Inning.overs_bowled inning)
  || (negb (Inning.id inning =? Inning.id first)
      && (Inning.total_runs first <? Inning.total_runs inning)).

(** ** Consistency of the stored tables *)

(** Legal (non-extra) deliveries recorded against an inning. *)
Definition legal_balls (db : DB) (inning_id : Z) : Z :=
  Z.of_nat
    (List.length (filter (fun d => negb (Delivery.is_extra d))
               (deliveries_of db inning_id))).

Definition inning_ok (db : DB) (i : Inning.t) : Prop :=
  Inning.id i < inning_seq db
  /\ 0 <= Inning.balls_bowled i <= 5
  /\ 0 <= Inning.wickets i <= 10
  /\ 0 <= Inning.overs_bowled i <= 20
  /\ (10 <= Inning.wickets i -> Inning.is_completed i = true)
  /\ (20 <= Inning.overs_bowled i -> Inning.is_completed i = true)
  /\ 6 * Inning.overs_bowled i + Inning.balls_bowled i
     = legal_balls db (Inning.id i).

(** A match has no innings, or the two that the toss created. *)
Definition innings_paired (db : DB) (match_id : Z) : Prop :=
  match_innings (innings db) match_id = []
  \/ exists i1 i2,
       match_innings (innings db) match_id = [i1; i2]
       /\ Inning.id i1 < Inning.id i2
       /\ Inning.batting_team_id i1 = Inning.bowling_team_id i2
       /\ Inning.bowling_team_id i1 = Inning.batting_team_id i2.

Record consistent (db : DB) : Prop := {
  c_keys : NoDup (map Inning.id (innings db));
  c_inning : forall i, In i (innings db) -> inning_ok db i;
  c_delivery :
    forall d, In d (deliveries db) -> Delivery.inning_id d < inning_seq db;
  c_paired : forall match_id, innings_paired db match_id;
  c_winner :
    forall m, In m (matches db) ->
      Match.winner_id m <> None -> Match.status m = COMPLETED;
  c_match :
    forall i, In i (innings db) ->
      get_match_by_id db (Inning.match_id i) <> None;
  c_teams :
    forall i, In i (innings db) ->
      mem (Inning.batting_team_id i) (teams db) = true
      /\ mem (Inning.bowling_team_id i) (teams db) = true
}.

(** ** A recorded delivery seen from both sides

    [scoring db mid d db' inning match_ a b]: on a consistent [db] the call
    [record_delivery db mid d] was applied and left [db']; [inning] and
    [match_] are the rows it read, [a] and [b] the first and second inning
    of the match. *)

Record scoring (db : DB) (mid : Z) (d : DeliveryCreate.t) (db' : DB)
    (inning : Inning.t) (match_ : Match.t) (a b : Inning.t) : Prop := {
  sc_inning : get_inning db (DeliveryCreate.inning_id d) = Some inning;
  sc_inning_id : Inning.id inning = DeliveryCreate.inning_id d;
  sc_match : get_match_by_id db mid = Some match_;
  sc_live : Match.status match_ <> COMPLETED;
  sc_no_winner : Match.winner_id match_ = None;
  sc_open : Inning.is_completed inning = false;
  sc_ok : inning_ok db inning;
  sc_pair : match_innings (innings db) mid = [a; b];
  sc_order : Inning.id a < Inning.id b;
  sc_teams : Inning.batting_team_id a = Inning.bowling_team_id b
             /\ Inning.bowling_team_id a = Inning.batting_team_id b;
  sc_target : inning = a \/ inning = b;
  sc_first : first_inning db mid = Some a;
  sc_inning' :
    get_inning db' (DeliveryCreate.inning_id d)
    = Some (scored_inning a inning d match_);
  sc_match' :
    get_match_by_id db' mid = Some (scored_match a inning d match_);
  sc_pair' :
    match_innings (innings db') mid
    = update_inning (scored_inning a inning d match_) [a; b];
  sc_innings' :
    innings db' = update_inning (scored_inning a inning d match_) (innings db);
  sc_deliveries' : deliveries db' = deliveries db ++ [delivery_row db d]
}.

(** ** Failures *)

(** The error kinds of the specification (section 7). *)
Inductive ErrorKind :=
  | InvalidTossWinner
  | AlreadyTossed
  | InningNotFound
  | InningMatchMismatch
  | MatchAlreadyCompleted
  | InningAlreadyCompleted.

(** In the specification's words: the precondition that a toss or a delivery
    violates.  A toss on a match that already has innings is [AlreadyTossed];
    a delivery fails on a missing inning, on an inning of another match, on
    a completed match and on a completed inning, looked at in that order. *)
Definition violation (db : DB) (o : op) : option ErrorKind :=
  match o with
  | Toss mid _ =>
      match get_match_by_id db mid with
      | Some m =>
          match match_innings (innings db) (Match.id m) with
          | [] => None
          | _ :: _ => Some AlreadyTossed
          end
      | None => None
      end
  | Score mid d =>
      match get_inning db (DeliveryCreate.inning_id d) with
      | None => Some InningNotFound
      | Some i =>
          if negb (Inning.match_id i =? mid) then Some InningMatchMismatch
          else
            match get_match_by_id db mid with
            | Some m =>
                if MatchStatus_eqb (Match.status m) COMPLETED
                then Some MatchAlreadyCompleted
                else if Inning.is_completed i
                     then Some InningAlreadyCompleted
                     else None
            | None => None
            end
      end
  | _ => None
  end.

(** The call made by [o] returned Python's [None] and left [db] as it was. *)
Definition returns_none (db : DB) (o : op) : Prop :=
  match o with
  | Toss mid t => update_match_toss db mid t = Return None db
  | Score mid d => record_delivery db mid d = Return None db
  | _ => False
  end.


(** ** Order of the innings *)





(** ** The other match endpoints of main.py

    The authenticated user that these endpoints take is not used by their
    bodies. *)

Definition create_match_in_tournament (db : DB) (tournament_id : Z)
    (match_ : MatchCreate.t) : result Match.t :=
  if MatchCreate.team1_id match_ =? MatchCreate.team2_id match_
  then Raise (HTTPException 400)
  else create_match db match_ tournament_id.

Definition read_match (db : DB) (match_id : Z) : result Match.t :=
  match get_match_by_id db match_id with
  | None => Raise (HTTPException 404)
  | Some db_match => Return db_match db
  end.

(** ** Requests

    Histories made of calls to the endpoints, where [run] makes them of calls
    to [crud.py]. *)

Inductive request :=
  | Roster (teams players tournaments : list Z)
  | FailedCommit (match_ids inning_ids delivery_ids : nat)
  | PostMatch (tournament_id : Z) (match_ : MatchCreate.t)
  | PostToss (match_id : Z) (toss_data : TossData.t)
  | PostScore (match_id : Z) (delivery : DeliveryCreate.t).

Definition serve (db : DB) (r : request) : DB :=
  match r with
  | Roster t p r => run_op db (AddRoster t p r)
  | FailedCommit m i d => run_op db (SkipIds m i d)
  | PostMatch tid m => db_after db (create_match_in_tournament db tid m)
  | PostToss mid t => db_after db (Main.record_toss db mid t)
  | PostScore mid d => db_after db (Main.record_delivery db mid d)
  end.

Definition served (rs : list request) : DB := fold_left serve rs empty_db.

(** ** The ball-by-ball log *)

(** What one recorded delivery adds to the total. *)
Definition delivery_runs (d : Delivery.t) : Z :=
  Delivery.runs_scored d + (if Delivery.is_extra d then 1 else 0).

Definition sum_runs (l : list Delivery.t) : Z :=
  fold_right (fun d acc => delivery_runs d + acc) 0 l.

Definition log_runs (db : DB) (inning_id : Z) : Z :=
  sum_runs (deliveries_of db inning_id).

Definition log_wickets (db : DB) (inning_id : Z) : Z :=
  Z.of_nat
    (List.length (filter Delivery.is_wicket (deliveries_of db inning_id))).

(** The inning reached one of the two limits. *)
Definition natural_end (i : Inning.t) : Prop :=
  10 <= Inning.wickets i \/ 20 <= Inning.overs_bowled i.

(** ** What one operation does to the tables *)

Inductive effect (db db' : DB) : Prop :=
  | eff_frame :
      matches db' = matches db -> innings db' = innings db ->
      deliveries db' = deliveries db ->
      match_seq db <= match_seq db' -> inning_seq db <= inning_seq db' ->
      delivery_seq db <= delivery_seq db' ->
      (forall x, mem x (teams db) = true -> mem x (teams db') = true) ->
      effect db db'
  | eff_create (m : Match.t) :
      db' = mkDB (teams db) (players db) (tournaments db) (matches db ++ [m])
              (innings db) (deliveries db)
              (match_seq db + 1) (inning_seq db) (delivery_seq db) ->
      Match.id m = match_seq db -> Match.status m = SCHEDULED ->
      Match.toss_winner_id m = None -> Match.toss_decision m = None ->
      Match.winner_id m = None ->
      mem (Match.team1_id m) (teams db) = true ->
      mem (Match.team2_id m) (teams db) = true ->
      effect db db'
  | eff_toss (mid : Z) (t : TossData.t) (stored m' : Match.t) :
      get_match_by_id db mid = Some stored ->
      match_innings (innings db) mid = [] ->
      m' = Match.set_toss (Some (TossData.toss_winner_id t))
             (Some (TossData.decision t)) stored ->
      db' = mkDB (teams db) (players db) (tournaments db)
              (update_match m' (matches db))
              (innings db ++
               [Inning.mk (inning_seq db) mid
                  (first_batting_team_id m' t) (first_bowling_team_id m' t)
                  0 0 0 0 false;
                Inning.mk (inning_seq db + 1) mid
                  (first_bowling_team_id m' t) (first_batting_team_id m' t)
                  0 0 0 0 false])
              (deliveries db)
              (match_seq db) (inning_seq db + 2) (delivery_seq db) ->
      effect db db'
  | eff_score (mid : Z) (d : DeliveryCreate.t) (inning : Inning.t)
      (match_ : Match.t) (a b : Inning.t) :
      scoring db mid d db' inning match_ a b ->
      db' = mkDB (teams db) (players db) (tournaments db)
              (update_match (scored_match a inning d match_) (matches db))
              (update_inning (scored_inning a inning d match_) (innings db))
              (deliveries db ++ [delivery_row db d])
              (match_seq db) (inning_seq db) (delivery_seq db + 1) ->
      effect db db'.

(** ** What every history keeps, beyond [consistent] *)

(** The result recorded on a completed match, against its two innings. *)
Definition result_agrees (m : Match.t) (a b : Inning.t) : Prop :=
  Inning.is_completed b = true
  /\ match Match.winner_id m with
     | Some w =>
         (w = Inning.batting_team_id b
          /\ Inning.total_runs a < Inning.total_runs b)
         \/ (w = Inning.bowling_team_id b
             /\ Inning.total_runs b < Inning.total_runs a
             /\ natural_end b)
     | None => Inning.total_runs a = Inning.total_runs b /\ natural_end b
     end.

(** The toss recorded on a match, against its first inning. *)
Definition toss_agrees (m : Match.t) (a : Inning.t) : Prop :=
  exists w dec,
    Match.toss_winner_id m = Some w /\ Match.toss_decision m = Some dec
    /\ Inning.batting_team_id a = first_batting_team_id m (TossData.mk w dec)
    /\ Inning.bowling_team_id a = first_bowling_team_id m (TossData.mk w dec).

Record coherent (db : DB) : Prop := {
  h_match_keys : NoDup (map Match.id (matches db));
  h_match_seq : forall m, In m (matches db) -> Match.id m < match_seq db;
  h_match_teams :
    forall m, In m (matches db) ->
      mem (Match.team1_id m) (teams db) = true
      /\ mem (Match.team2_id m) (teams db) = true;
  h_delivery_keys :
    StronglySorted Z.lt (map Delivery.id (deliveries db));
  h_delivery_seq :
    forall d, In d (deliveries db) -> Delivery.id d < delivery_seq db;
  h_delivery_inning :
    forall d, In d (deliveries db) ->
      get_inning db (Delivery.inning_id d) <> None;
  h_log :
    forall i, In i (innings db) ->
      Inning.total_runs i = log_runs db (Inning.id i)
      /\ Inning.wickets i = log_wickets db (Inning.id i);
  h_last_over :
    forall i, In i (innings db) ->
      Inning.overs_bowled i = 20 -> Inning.balls_bowled i = 0;
  h_status :
    forall m, In m (matches db) ->
      Match.status m <> ABANDONED
      /\ (Match.status m = SCHEDULED <->
          forall i, In i (match_innings (innings db) (Match.id m)) ->
                    deliveries_of db (Inning.id i) = []);
  h_toss :
    forall m, In m (matches db) ->
      (match_innings (innings db) (Match.id m) = [] ->
       Match.toss_winner_id m = None /\ Match.toss_decision m = None)
      /\ (forall a b, match_innings (innings db) (Match.id m) = [a; b] ->
                      toss_agrees m a);
  h_result :
    forall m a b, In m (matches db) ->
      match_innings (innings db) (Match.id m) = [a; b] ->
      Match.status m = COMPLETED -> result_agrees m a b
}.

(** What the endpoints add: the two sides of a match differ and the toss is
    won by one of them. *)
Definition sides_ok (db : DB) : Prop :=
  forall m, In m (matches db) ->
    Match.team1_id m <> Match.team2_id m
    /\ (forall w, Match.toss_winner_id m = Some w ->
                  w = Match.team1_id m \/ w = Match.team2_id m).

(** An inning row later in a history: the same inning of the same match
    between the same teams, with no fewer wickets and overs, and the very
    same row once it was completed. *)
Definition advances (i i' : Inning.t) : Prop :=
  Inning.id i' = Inning.id i
  /\ Inning.match_id i' = Inning.match_id i
  /\ Inning.batting_team_id i' = Inning.batting_team_id i
  /\ Inning.bowling_team_id i' = Inning.bowling_team_id i
  /\ Inning.wickets i <= Inning.wickets i'
  /\ Inning.overs_bowled i <= Inning.overs_bowled i'
  /\ (Inning.is_completed i = true -> i' = i).

(** A match row later in a history: the same match between the same
    teams; a recorded toss is kept, a match that has started has not gone
    back to Scheduled, and a Completed match is the very same row. *)
Definition keeps (m m' : Match.t) : Prop :=
  Match.id m' = Match.id m
  /\ Match.match_date m' = Match.match_date m
  /\ Match.venue m' = Match.venue m
  /\ Match.tournament_id m' = Match.tournament_id m
  /\ Match.team1_id m' = Match.team1_id m
  /\ Match.team2_id m' = Match.team2_id m
  /\ (Match.toss_winner_id m <> None ->
      Match.toss_winner_id m' = Match.toss_winner_id m
      /\ Match.toss_decision m' = Match.toss_decision m)
  /\ (Match.status m <> SCHEDULED -> Match.status m' <> SCHEDULED)
  /\ (Match.status m = COMPLETED -> m' = m).

(** ** Sample histories *)

Definition ball (inning_id runs : Z) (is_wicket is_extra : bool)
  : DeliveryCreate.t :=
  DeliveryCreate.mk inning_id 1 2 runs is_wicket is_extra None.

(** Teams 1, 2 and 3 and players 1 and 2 exist; match 1 is created between
    teams 1 and 2; no toss yet. *)
Definition match_created : list op :=
  [AddRoster [1; 2; 3] [1; 2] [1];
   CreateMatch (MatchCreate.mk 0 None 1 2) 1].

(** Team 1 wins the toss and bats: inning 1 is team 1's, inning 2 is
    team 2's. *)
Definition after_toss : list op :=
  match_created ++ [Toss 1 (TossData.mk 1 BAT)].


(** The first inning scores 2 off one ball. *)
Definition first_scored : list op :=
  after_toss ++ [Score 1 (ball 1 2 false false)].

(** Five legal balls of the first over have been bowled. *)
Definition five_balls : list op :=
  after_toss ++ repeat (Score 1 (ball 1 1 false false)) 5.

(** The first inning is all out for 10; the match is still live. *)
Definition first_all_out : list op :=
  after_toss ++ repeat (Score 1 (ball 1 1 true false)) 10.


(** Inning 1 is all out, then nine wickets fall for no run in inning 2. *)
Definition nine_down : list op :=
  first_all_out ++ repeat (Score 1 (ball 2 0 true false)) 9.

(** All out twice: the second inning has lost its tenth wicket. *)
Definition all_out : list op := nine_down ++ [Score 1 (ball 2 0 true false)].

(** Both sides all out for 10 runs. *)
Definition tied : list op :=
  first_all_out ++ repeat (Score 1 (ball 2 1 true false)) 10.

(** Inning 1 lasts its twenty overs without a run or a wicket. *)
Definition twenty_overs : list op :=
  after_toss ++ repeat (Score 1 (ball 1 0 false false)) 120.

(** Inning 1 is all out for 10, then inning 2 passes it with three fours. *)
Definition chased : list op :=
  first_all_out ++ repeat (Score 1 (ball 2 4 false false)) 3.

(** * Lemmas *)

(** ** Proof steps *)

(** [H] says that a call returned a row: its commit went through. *)
Ltac committed H :=
  match type of H with
  | (if ?c then _ else _) = _ => destruct c; [|discriminate]
  end.

(** [H] says that a call returned [None] where it commits: impossible. *)
Ltac uncommitted H :=
  match type of H with
  | (if ?c then _ else _) = _ => destruct c; discriminate
  end.

(** ** Basic facts about the tables *)

Lemma find_inning_id (l : list Inning.t) (x : Z) (i : Inning.t) :
  find (fun i => Inning.id i =? x) l = Some i -> Inning.id i = x /\ In i l.
Proof.
  intros H. apply find_some in H. destruct H as [Hin Heq].
  apply Z.eqb_eq in Heq. auto.
Qed.

Lemma get_inning_in db x i : get_inning db x = Some i -> In i (innings db).
Proof.
  unfold get_inning. intros H. apply find_inning_id in H. tauto.
Qed.

Lemma find_match_id (l : list Match.t) (x : Z) (m : Match.t) :
  find (fun m => Match.id m =? x) l = Some m -> Match.id m = x /\ In m l.
Proof.
  intros H. apply find_some in H. destruct H as [Hin Heq].
  apply Z.eqb_eq in Heq. auto.
Qed.

Lemma find_update_inning (r : Inning.t) (l : list Inning.t) (x : Z) :
  find (fun i => Inning.id i =? x) (update_inning r l) =
  if x =? Inning.id r
  then match find (fun i => Inning.id i =? x) l with
       | Some _ => Some r
       | None => None
       end
  else find (fun i => Inning.id i =? x) l.
Proof.
  induction l as [|a l IH]; simpl.
  - destruct (x =? Inning.id r); reflexivity.
  - destruct (Inning.id a =? Inning.id r) eqn:Ea.
    + apply Z.eqb_eq in Ea.
      destruct (x =? Inning.id r) eqn:Ex.
      * apply Z.eqb_eq in Ex. subst x.
        rewrite Z.eqb_refl. rewrite Ea, Z.eqb_refl. reflexivity.
      * rewrite Z.eqb_sym, Ex. rewrite Ea, Z.eqb_sym, Ex. exact IH.
    + destruct (Inning.id a =? x) eqn:Eax.
      * apply Z.eqb_eq in Eax. subst x. rewrite Ea. reflexivity.
      * exact IH.
Qed.

Lemma find_update_match (r : Match.t) (l : list Match.t) (x : Z) :
  find (fun m => Match.id m =? x) (update_match r l) =
  if x =? Match.id r
  then match find (fun m => Match.id m =? x) l with
       | Some _ => Some r
       | None => None
       end
  else find (fun m => Match.id m =? x) l.
Proof.
  induction l as [|a l IH]; simpl.
  - destruct (x =? Match.id r); reflexivity.
  - destruct (Match.id a =? Match.id r) eqn:Ea.
    + apply Z.eqb_eq in Ea.
      destruct (x =? Match.id r) eqn:Ex.
      * apply Z.eqb_eq in Ex. subst x.
        rewrite Z.eqb_refl. rewrite Ea, Z.eqb_refl. reflexivity.
      * rewrite Z.eqb_sym, Ex. rewrite Ea, Z.eqb_sym, Ex. exact IH.
    + destruct (Match.id a =? x) eqn:Eax.
      * apply Z.eqb_eq in Eax. subst x. rewrite Ea. reflexivity.
      * exact IH.
Qed.

Lemma MatchStatus_eqb_eq (a b : MatchStatus) :
  MatchStatus_eqb a b = true <-> a = b.
Proof. destruct a, b; simpl; split; congruence. Qed.

Lemma record_delivery_inv db mid d dl db' :
  record_delivery db mid d = Return (Some dl) db' ->
  exists inning match_ first,
    get_inning db (DeliveryCreate.inning_id d) = Some inning
    /\ Inning.match_id inning = mid
    /\ get_match_by_id db mid = Some match_
    /\ Match.status match_ <> COMPLETED
    /\ Inning.is_completed inning = false
    /\ hd_error
         (sorted_by_id
            (match_innings
               (update_inning (update_inning_score inning d) (innings db))
               mid)) = Some first
    /\ dl = delivery_row db d
    /\ db' =
       mkDB (teams db) (players db) (tournaments db)
         (update_match (scored_match first inning d match_) (matches db))
         (update_inning (scored_inning first inning d match_) (innings db))
         (deliveries db ++ [dl])
         (match_seq db) (inning_seq db) (delivery_seq db + 1).
Proof.
  unfold record_delivery, get_inning. intros H.
  destruct (find _ (innings db)) as [inning|] eqn:Ei; [|discriminate].
  destruct (Inning.match_id inning =? mid) eqn:Em; simpl in H; [|discriminate].
  apply Z.eqb_eq in Em.
  destruct (get_match_by_id db (Inning.match_id inning)) as [match_|] eqn:Eg;
    [|discriminate].
  destruct (MatchStatus_eqb (Match.status match_) COMPLETED) eqn:Es;
    simpl in H; [discriminate|].
  destruct (Inning.is_completed inning) eqn:Ec; [discriminate|].
  assert (Hid : Match.id match_ = mid).
  { unfold get_match_by_id in Eg. apply find_match_id in Eg.
    destruct Eg as [Eg _]. congruence. }
  assert (Hml : Match.id (mark_live match_) = mid).
  { unfold mark_live. destruct (MatchStatus_eqb _ SCHEDULED); exact Hid. }
  rewrite Hml in H.
  destruct (sorted_by_id _) as [|first rest] eqn:Es'; [discriminate|].
  destruct (check_end first (update_inning_score inning d) (mark_live match_))
    as [inning2 match2] eqn:Ece.
  do 3 committed H.
  inversion H; subst dl db'; clear H.
  exists inning, match_, first. rewrite Em in Eg.
  repeat split; auto.
  - intros Hs. apply MatchStatus_eqb_eq in Hs. congruence.
  - rewrite Es'. reflexivity.
  - unfold scored_match, scored_inning. rewrite Ece. reflexivity.
Qed.

(** ** Closed forms of the scoring steps *)

Lemma update_inning_score_eq inning d :
  update_inning_score inning d =
  Inning.mk (Inning.id inning) (Inning.match_id inning)
    (Inning.batting_team_id inning) (Inning.bowling_team_id inning)
    (Inning.total_runs inning + DeliveryCreate.runs_scored d
     + (if DeliveryCreate.is_extra d then 1 else 0))
    (Inning.wickets inning + (if DeliveryCreate.is_wicket d then 1 else 0))
    (if DeliveryCreate.is_extra d then Inning.overs_bowled inning
     else if Inning.balls_bowled inning + 1 =? 6
          then Inning.overs_bowled inning + 1
          else Inning.overs_bowled inning)
    (if DeliveryCreate.is_extra d then Inning.balls_bowled inning
     else if Inning.balls_bowled inning + 1 =? 6 then 0
          else Inning.balls_bowled inning + 1)
    (Inning.is_completed inning).
Proof.
  unfold update_inning_score. destruct inning as [i m bt bw tr w o b c].
  destruct (DeliveryCreate.is_extra d), (DeliveryCreate.is_wicket d);
    unfold Inning.set_total_runs, Inning.set_wickets, Inning.set_balls_bowled,
      Inning.set_overs_bowled, negb;
    cbn [Inning.id Inning.match_id Inning.batting_team_id
         Inning.bowling_team_id Inning.total_runs Inning.wickets
         Inning.overs_bowled Inning.balls_bowled Inning.is_completed];
    try destruct (b + 1 =? 6);
    cbn [Inning.id Inning.match_id Inning.batting_team_id
         Inning.bowling_team_id Inning.total_runs Inning.wickets
         Inning.overs_bowled Inning.balls_bowled Inning.is_completed];
    f_equal; lia.
Qed.

Lemma check_end_fst first inning match_ :
  fst (check_end first inning match_) =
  if inning_over first inning
  then Inning.set_is_completed true inning else inning.
Proof.
  unfold check_end, inning_over.
  destruct (Inning.id inning =? Inning.id first); simpl.
  - rewrite orb_false_r.
    destruct ((10 <=? Inning.wickets inning)
              || (20 <=? Inning.overs_bowled inning)); reflexivity.
  - destruct (Inning.total_runs first <? Inning.total_runs inning); simpl.
    + rewrite orb_true_r.
      destruct (negb (negb (Inning.batting_team_id inning =? 0)));
        reflexivity.
    + rewrite orb_false_r.
      destruct ((10 <=? Inning.wickets inning)
                || (20 <=? Inning.overs_bowled inning)); [|reflexivity].
      destruct (negb (truthy (Match.winner_id match_))); reflexivity.
Qed.

Lemma check_end_snd first inning match_ :
  snd (check_end first inning match_) =
  if Inning.id inning =? Inning.id first then match_
  else if Inning.total_runs first <? Inning.total_runs inning then
    Match.set_status COMPLETED
      (Match.set_winner_id (Some (Inning.batting_team_id inning)) match_)
  else if (10 <=? Inning.wickets inning)
          || (20 <=? Inning.overs_bowled inning) then
    if truthy (Match.winner_id match_) then match_
    else
      Match.set_status COMPLETED
        (if Inning.total_runs inning <? Inning.total_runs first
         then Match.set_winner_id (Some (Inning.bowling_team_id inning)) match_
         else match_)
  else match_.
Proof.
  unfold check_end.
  destruct (Inning.id inning =? Inning.id first); simpl.
  - destruct ((10 <=? Inning.wickets inning)
              || (20 <=? Inning.overs_bowled inning)); reflexivity.
  - destruct (Inning.total_runs first <? Inning.total_runs inning) eqn:E;
      simpl.
    + destruct (negb (negb (Inning.batting_team_id inning =? 0)));
        reflexivity.
    + destruct ((10 <=? Inning.wickets inning)
                || (20 <=? Inning.overs_bowled inning)); [|reflexivity].
      destruct (truthy (Match.winner_id match_)); reflexivity.
Qed.

Lemma mark_live_facts match_ :
  Match.id (mark_live match_) = Match.id match_
  /\ Match.winner_id (mark_live match_) = Match.winner_id match_
  /\ (Match.status match_ <> COMPLETED ->
      Match.status (mark_live match_) <> COMPLETED).
Proof.
  unfold mark_live.
  destruct (MatchStatus_eqb (Match.status match_) SCHEDULED); simpl;
    repeat split; auto; discriminate.
Qed.

Lemma update_match_toss_inv db mid t m' db' :
  update_match_toss db mid t = Return (Some m') db' ->
  exists stored,
    get_match_by_id db mid = Some stored
    /\ Match.id stored = mid
    /\ match_innings (innings db) mid = []
    /\ m' = Match.set_toss (Some (TossData.toss_winner_id t))
              (Some (TossData.decision t)) stored
    /\ db' =
       mkDB (teams db) (players db) (tournaments db)
         (update_match m' (matches db))
         (innings db ++
          [Inning.mk (inning_seq db) mid
             (first_batting_team_id m' t) (first_bowling_team_id m' t)
             0 0 0 0 false;
           Inning.mk (inning_seq db + 1) mid
             (first_bowling_team_id m' t) (first_batting_team_id m' t)
             0 0 0 0 false])
         (deliveries db)
         (match_seq db) (inning_seq db + 2) (delivery_seq db).
Proof.
  unfold update_match_toss. intros H.
  destruct (get_match_by_id db mid) as [stored|] eqn:Eg; [|discriminate].
  assert (Hid : Match.id stored = mid).
  { unfold get_match_by_id in Eg. apply find_match_id in Eg. tauto. }
  rewrite Hid in H.
  destruct (match_innings (innings db) mid) eqn:Ei; [|discriminate].
  committed H.
  inversion H; subst m' db'; clear H.
  exists stored. repeat split; auto.
Qed.

Lemma update_inning_ids r l :
  map Inning.id (update_inning r l) = map Inning.id l.
Proof.
  induction l as [|a l IH]; simpl; [reflexivity|].
  rewrite IH. destruct (Inning.id a =? Inning.id r) eqn:E; [|reflexivity].
  apply Z.eqb_eq in E. congruence.
Qed.

Lemma in_update_inning r l x :
  In x (update_inning r l) ->
  (x = r /\ exists y, In y l /\ Inning.id y = Inning.id r)
  \/ (In x l /\ Inning.id x <> Inning.id r).
Proof.
  unfold update_inning. intros H. apply in_map_iff in H.
  destruct H as [y [Hy Hin]].
  destruct (Inning.id y =? Inning.id r) eqn:E.
  - apply Z.eqb_eq in E. left. split; [congruence|]. exists y. auto.
  - apply Z.eqb_neq in E. right. subst x. auto.
Qed.

Lemma in_update_match r l x :
  In x (update_match r l) ->
  (x = r /\ exists y, In y l /\ Match.id y = Match.id r) \/ In x l.
Proof.
  unfold update_match. intros H. apply in_map_iff in H.
  destruct H as [y [Hy Hin]].
  destruct (Match.id y =? Match.id r) eqn:E.
  - apply Z.eqb_eq in E. left. split; [congruence|]. exists y. auto.
  - right. subst x. auto.
Qed.

Lemma keys_injective (l : list Inning.t) x y :
  NoDup (map Inning.id l) -> In x l -> In y l ->
  Inning.id x = Inning.id y -> x = y.
Proof.
  induction l as [|a l IH]; simpl; intros Hnd Hx Hy Heq; [contradiction|].
  inversion Hnd as [|? ? Hnotin Hnd']; subst.
  destruct Hx as [Hx|Hx], Hy as [Hy|Hy]; subst.
  - reflexivity.
  - exfalso. apply Hnotin. rewrite Heq. apply in_map. exact Hy.
  - exfalso. apply Hnotin. rewrite <- Heq. apply in_map. exact Hx.
  - apply IH; auto.
Qed.

(** Writing a row back leaves every [match.innings] list in place when the
    row keeps the match of the row it replaces. *)
Lemma match_innings_update r l m :
  (forall x, In x l -> Inning.id x = Inning.id r ->
             Inning.match_id x = Inning.match_id r) ->
  match_innings (update_inning r l) m = update_inning r (match_innings l m).
Proof.
  induction l as [|a l IH]; simpl; intros H; [reflexivity|].
  assert (IH' := IH (fun x Hx => H x (or_intror Hx))).
  destruct (Inning.id a =? Inning.id r) eqn:E.
  - apply Z.eqb_eq in E.
    rewrite <- (H a (or_introl eq_refl) E).
    destruct (Inning.match_id a =? m); simpl.
    + apply Z.eqb_eq in E. rewrite E. f_equal. exact IH'.
    + exact IH'.
  - destruct (Inning.match_id a =? m); simpl.
    + rewrite E. f_equal. exact IH'.
    + exact IH'.
Qed.

Lemma match_innings_app l1 l2 m :
  match_innings (l1 ++ l2) m = match_innings l1 m ++ match_innings l2 m.
Proof. apply filter_app. Qed.

Lemma in_match_innings l m x :
  In x (match_innings l m) <-> In x l /\ Inning.match_id x = m.
Proof.
  unfold match_innings. rewrite filter_In, Z.eqb_eq. tauto.
Qed.

Lemma check_end_fields first inning match_ :
  let i2 := fst (check_end first inning match_) in
  Inning.id i2 = Inning.id inning
  /\ Inning.match_id i2 = Inning.match_id inning
  /\ Inning.batting_team_id i2 = Inning.batting_team_id inning
  /\ Inning.bowling_team_id i2 = Inning.bowling_team_id inning
  /\ Inning.total_runs i2 = Inning.total_runs inning
  /\ Inning.wickets i2 = Inning.wickets inning
  /\ Inning.overs_bowled i2 = Inning.overs_bowled inning
  /\ Inning.balls_bowled i2 = Inning.balls_bowled inning
  /\ Inning.is_completed i2
     = Inning.is_completed inning || inning_over first inning.
Proof.
  cbv zeta. rewrite check_end_fst.
  destruct (inning_over first inning); simpl;
    rewrite ?orb_true_r, ?orb_false_r; repeat split; reflexivity.
Qed.

Lemma scored_inning_fields first inning d match_ :
  let i2 := scored_inning first inning d match_ in
  Inning.id i2 = Inning.id inning
  /\ Inning.match_id i2 = Inning.match_id inning
  /\ Inning.batting_team_id i2 = Inning.batting_team_id inning
  /\ Inning.bowling_team_id i2 = Inning.bowling_team_id inning
  /\ Inning.total_runs i2
     = Inning.total_runs inning + DeliveryCreate.runs_scored d
       + (if DeliveryCreate.is_extra d then 1 else 0)
  /\ Inning.wickets i2
     = Inning.wickets inning + (if DeliveryCreate.is_wicket d then 1 else 0)
  /\ Inning.overs_bowled i2
     = (if DeliveryCreate.is_extra d then Inning.overs_bowled inning
        else if Inning.balls_bowled inning + 1 =? 6
             then Inning.overs_bowled inning + 1
             else Inning.overs_bowled inning)
  /\ Inning.balls_bowled i2
     = (if DeliveryCreate.is_extra d then Inning.balls_bowled inning
        else if Inning.balls_bowled inning + 1 =? 6 then 0
             else Inning.balls_bowled inning + 1)
  /\ Inning.is_completed i2
     = Inning.is_completed inning
       || inning_over first (update_inning_score inning d).
Proof.
  cbv zeta. unfold scored_inning.
  pose proof (check_end_fields first (update_inning_score inning d)
                (mark_live match_)) as H.
  cbv zeta in H. destruct H as (H1 & H2 & H3 & H4 & H5 & H6 & H7 & H8 & H9).
  rewrite H1, H2, H3, H4, H5, H6, H7, H8, H9.
  rewrite update_inning_score_eq. simpl. repeat split; reflexivity.
Qed.

(** The fields of the inning row that a delivery writes back, as [F1] to
    [F9]. *)
Ltac written_fields first inning d match_ :=
  pose proof (scored_inning_fields first inning d match_) as F;
  cbv zeta in F;
  destruct F as (F1 & F2 & F3 & F4 & F5 & F6 & F7 & F8 & F9).

Lemma legal_balls_snoc db db' dl x :
  deliveries db' = deliveries db ++ [dl] ->
  legal_balls db' x =
  legal_balls db x
  + (if (Delivery.inning_id dl =? x) && negb (Delivery.is_extra dl)
     then 1 else 0).
Proof.
  intros H. unfold legal_balls, deliveries_of. rewrite H.
  rewrite !filter_app, !length_app. simpl.
  destruct (Delivery.inning_id dl =? x); simpl.
  - destruct (negb (Delivery.is_extra dl)); simpl; lia.
  - lia.
Qed.

Lemma check_end_first_ext f f' inning match_ :
  Inning.id f = Inning.id f' ->
  (Inning.id inning <> Inning.id f ->
   Inning.total_runs f = Inning.total_runs f') ->
  check_end f inning match_ = check_end f' inning match_.
Proof.
  intros Hid Hruns. unfold check_end. rewrite <- Hid.
  destruct (Inning.id inning =? Inning.id f) eqn:E.
  - reflexivity.
  - apply Z.eqb_neq in E. rewrite <- (Hruns E). reflexivity.
Qed.

Lemma sorted_by_id_pair a b :
  Inning.id a < Inning.id b -> sorted_by_id [a; b] = [a; b].
Proof.
  intros H. unfold sorted_by_id. simpl.
  destruct (Inning.id a <=? Inning.id b) eqn:E; [reflexivity|].
  apply Z.leb_gt in E. lia.
Qed.

Lemma consistent_status_winner db m :
  consistent db -> In m (matches db) ->
  Match.status m <> COMPLETED -> Match.winner_id m = None.
Proof.
  intros Hc Hin Hs. destruct (Match.winner_id m) eqn:E; [|reflexivity].
  exfalso. apply Hs. apply (c_winner db Hc m Hin). congruence.
Qed.

(** A recorded delivery, read in a consistent database: the target inning is
    one of the two innings [a], [b] of the match, [a] is [all_innings[0]]. *)
Lemma scored_context db mid d dl db' :
  consistent db ->
  record_delivery db mid d = Return (Some dl) db' ->
  exists inning match_ a b,
    get_inning db (DeliveryCreate.inning_id d) = Some inning
    /\ In inning (innings db)
    /\ Inning.id inning = DeliveryCreate.inning_id d
    /\ Inning.match_id inning = mid
    /\ get_match_by_id db mid = Some match_
    /\ In match_ (matches db)
    /\ Match.id match_ = mid
    /\ Match.status match_ <> COMPLETED
    /\ Match.winner_id match_ = None
    /\ Inning.is_completed inning = false
    /\ match_innings (innings db) mid = [a; b]
    /\ Inning.id a < Inning.id b
    /\ Inning.batting_team_id a = Inning.bowling_team_id b
    /\ Inning.bowling_team_id a = Inning.batting_team_id b
    /\ (inning = a \/ inning = b)
    /\ dl = delivery_row db d
    /\ db' =
       mkDB (teams db) (players db) (tournaments db)
         (update_match (scored_match a inning d match_) (matches db))
         (update_inning (scored_inning a inning d match_) (innings db))
         (deliveries db ++ [dl])
         (match_seq db) (inning_seq db) (delivery_seq db + 1).
Proof.
  intros Hc H. apply record_delivery_inv in H.
  destruct H as (inning & match_ & first & Hg & Hm & Hgm & Hs & Hcompl
                 & Hfirst & Hdl & Hdb).
  pose proof Hg as Hg'. unfold get_inning in Hg'.
  apply find_inning_id in Hg'. destruct Hg' as [Hid Hin].
  pose proof Hgm as Hgm'. unfold get_match_by_id in Hgm'.
  apply find_match_id in Hgm'. destruct Hgm' as [Hmid Hmin].
  set (i1 := update_inning_score inning d) in *.
  assert (Hi1 : Inning.id i1 = Inning.id inning
                /\ Inning.match_id i1 = Inning.match_id inning).
  { unfold i1. rewrite update_inning_score_eq. simpl. auto. }
  destruct Hi1 as [Hi1 Hi1m].
  rewrite match_innings_update in Hfirst.
  2:{ intros x Hx Hxid. rewrite Hi1m.
      f_equal. apply (keys_injective (innings db)); auto.
      - apply (c_keys db Hc).
      - congruence. }
  assert (Hinm : In inning (match_innings (innings db) mid)).
  { apply in_match_innings. auto. }
  destruct (c_paired db Hc mid) as [Hnil | (a & b & Hab & Hlt & Ht1 & Ht2)].
  { rewrite Hnil in Hinm. contradiction. }
  rewrite Hab in Hinm, Hfirst.
  assert (Ha : In a (innings db)).
  { apply (in_match_innings (innings db) mid). rewrite Hab. simpl. auto. }
  assert (Hb : In b (innings db)).
  { apply (in_match_innings (innings db) mid). rewrite Hab. simpl. auto. }
  exists inning, match_, a, b.
  assert (Hor : inning = a \/ inning = b).
  { simpl in Hinm. destruct Hinm as [E|[E|[]]]; auto. }
  repeat split; auto.
  { apply (consistent_status_winner db); auto. }
  assert (Hce : check_end first i1 (mark_live match_)
                = check_end a i1 (mark_live match_)).
  { simpl in Hfirst. rewrite sorted_by_id_pair in Hfirst.
    - simpl in Hfirst. inversion Hfirst as [Hf]; clear Hfirst.
      destruct (Inning.id a =? Inning.id i1) eqn:E.
      + apply Z.eqb_eq in E. apply check_end_first_ext; [congruence|].
        intros Hne. congruence.
      + reflexivity.
    - destruct (Inning.id a =? Inning.id i1) eqn:Ea;
        destruct (Inning.id b =? Inning.id i1) eqn:Eb;
        try apply Z.eqb_eq in Ea; try apply Z.eqb_eq in Eb; lia. }
  unfold scored_match, scored_inning in *. fold i1.
  rewrite <- Hce. exact Hdb.
Qed.

(** ** The operations keep the tables consistent *)

Lemma consistent_empty : consistent empty_db.
Proof.
  split; simpl; try contradiction.
  - constructor.
  - intros m. left. reflexivity.
Qed.

Lemma mem_app x l l' : mem x l = true -> mem x (l ++ l') = true.
Proof.
  unfold mem. rewrite existsb_app. intros ->. reflexivity.
Qed.

Lemma get_match_update_some r l x :
  find (fun m => Match.id m =? x) l <> None ->
  find (fun m => Match.id m =? x) (update_match r l) <> None.
Proof.
  rewrite find_update_match.
  destruct (x =? Match.id r); destruct (find _ l); congruence.
Qed.

Lemma get_match_app_some l l' x :
  find (fun m => Match.id m =? x) l <> None ->
  find (fun m => Match.id m =? x) (l ++ l') <> None.
Proof.
  induction l as [|a l IH]; simpl; [congruence|].
  destruct (Match.id a =? x); [congruence|exact IH].
Qed.

(** An operation that leaves the innings and the deliveries alone keeps the
    tables consistent when it keeps the matches findable, the teams present
    and the inning sequence from going back. *)
Lemma consistent_frame db db' :
  innings db' = innings db -> deliveries db' = deliveries db ->
  inning_seq db <= inning_seq db' ->
  (forall m, In m (matches db') ->
     Match.winner_id m <> None -> Match.status m = COMPLETED) ->
  (forall x, get_match_by_id db x <> None -> get_match_by_id db' x <> None) ->
  (forall x, mem x (teams db) = true -> mem x (teams db') = true) ->
  consistent db -> consistent db'.
Proof.
  intros Hi Hd Hs Hw Hm Ht Hc. split.
  - rewrite Hi. apply (c_keys db Hc).
  - intros i Hin. rewrite Hi in Hin.
    pose proof (c_inning db Hc i Hin) as Hok.
    unfold inning_ok, legal_balls, deliveries_of in *.
    rewrite Hd. intuition lia.
  - intros d Hin. rewrite Hd in Hin.
    pose proof (c_delivery db Hc d Hin). lia.
  - intros m. pose proof (c_paired db Hc m) as Hp.
    unfold innings_paired in *. rewrite Hi. exact Hp.
  - exact Hw.
  - intros i Hin. rewrite Hi in Hin. apply Hm. apply (c_match db Hc i Hin).
  - intros i Hin. rewrite Hi in Hin.
    destruct (c_teams db Hc i Hin). split; apply Ht; assumption.
Qed.

Lemma consistent_create_match db m tid v db' :
  consistent db -> create_match db m tid = Return v db' -> consistent db'.
Proof.
  unfold create_match. intros Hc H.
  committed H.
  inversion H; subst; clear H.
  apply (consistent_frame db); simpl; auto; try lia.
  - intros x Hin. apply in_app_or in Hin. destruct Hin as [Hin|Hin].
    + apply (c_winner db Hc x Hin).
    + simpl in Hin. destruct Hin as [<-|[]]. simpl. congruence.
  - intros x. unfold get_match_by_id. simpl. apply get_match_app_some.
Qed.

Lemma filter_none {A : Type} (f : A -> bool) (l : list A) :
  (forall x, In x l -> f x = false) -> filter f l = [].
Proof.
  induction l as [|a l IH]; simpl; intros H; [reflexivity|].
  rewrite (H a (or_introl eq_refl)). apply IH. intros x Hx. apply H. auto.
Qed.

(** No delivery refers to an inning id that the sequence has not issued. *)
Lemma legal_balls_fresh db x :
  consistent db -> inning_seq db <= x -> legal_balls db x = 0.
Proof.
  intros Hc Hx. unfold legal_balls, deliveries_of.
  rewrite (filter_none (fun d => Delivery.inning_id d =? x)); [reflexivity|].
  intros d Hd. apply Z.eqb_neq. pose proof (c_delivery db Hc d Hd). lia.
Qed.

Lemma toss_none_unchanged db mid t db' :
  update_match_toss db mid t = Return None db' -> db' = db.
Proof.
  unfold update_match_toss. intros H.
  destruct (get_match_by_id db mid) as [stored|];
    [|inversion H; reflexivity].
  destruct (match_innings (innings db) (Match.id stored));
    [|inversion H; reflexivity].
  uncommitted H.
Qed.

Lemma update_match_toss_fk db mid t m' db' :
  update_match_toss db mid t = Return (Some m') db' ->
  mem (first_batting_team_id m' t) (teams db) = true
  /\ mem (first_bowling_team_id m' t) (teams db) = true.
Proof.
  unfold update_match_toss. intros H.
  destruct (get_match_by_id db mid) as [stored|]; [|discriminate].
  destruct (match_innings (innings db) (Match.id stored)); [|discriminate].
  match type of H with
  | (if ?c then _ else _) = _ => destruct c eqn:E; [|discriminate]
  end.
  inversion H; subst m' db'; clear H.
  apply andb_true_iff in E. destruct E as [E E3].
  apply andb_true_iff in E. destruct E as [_ E2].
  simpl in E2, E3. auto.
Qed.

Lemma consistent_toss db mid t v db' :
  consistent db -> update_match_toss db mid t = Return v db' ->
  consistent db'.
Proof.
  intros Hc H. destruct v as [m'|].
  2:{ apply toss_none_unchanged in H. subst. exact Hc. }
  pose proof (update_match_toss_fk db mid t m' db' H) as [Hfk1 Hfk2].
  apply update_match_toss_inv in H.
  destruct H as (stored & Hg & Hid & Hnil & Hm' & Hdb).
  pose proof Hg as Hfound.
  unfold get_match_by_id in Hg. apply find_match_id in Hg.
  destruct Hg as [_ Hin].
  set (bat := first_batting_team_id m' t) in *.
  set (bowl := first_bowling_team_id m' t) in *.
  subst db'. split; simpl.
  - rewrite map_app. simpl. apply NoDup_app.
    + apply (c_keys db Hc).
    + constructor.
      * simpl. intros [E|[]]. lia.
      * constructor; [simpl; tauto|constructor].
    + intros x Hx Hx'. apply in_map_iff in Hx.
      destruct Hx as (i & Hi & Hini).
      destruct (c_inning db Hc i Hini) as [Hlt _].
      simpl in Hx'. destruct Hx' as [E|[E|[]]]; lia.
  - intros i Hi. apply in_app_or in Hi. destruct Hi as [Hi|Hi].
    + pose proof (c_inning db Hc i Hi) as Hok.
      unfold inning_ok, legal_balls, deliveries_of in *. simpl.
      intuition lia.
    + assert (Hz : legal_balls db (Inning.id i) = 0
                   /\ inning_seq db <= Inning.id i < inning_seq db + 2
                   /\ Inning.balls_bowled i = 0 /\ Inning.wickets i = 0
                   /\ Inning.overs_bowled i = 0).
      { simpl in Hi. destruct Hi as [<-|[<-|[]]]; simpl;
          (split; [apply legal_balls_fresh; [exact Hc|lia]|lia]). }
      destruct Hz as (Hz & Hr & Hb & Hw & Ho).
      unfold inning_ok, legal_balls, deliveries_of in *. simpl.
      rewrite Hz, Hb, Hw, Ho. repeat split; try lia.
  - intros d Hd. pose proof (c_delivery db Hc d Hd). lia.
  - intros m. unfold innings_paired. simpl.
    rewrite match_innings_app. simpl.
    destruct (mid =? m) eqn:E.
    + apply Z.eqb_eq in E. subst m. rewrite Hnil. simpl.
      right. eexists. eexists. split; [reflexivity|]. simpl.
      repeat split; lia.
    + rewrite app_nil_r. apply (c_paired db Hc m).
  - intros m Hm Hw. apply in_update_match in Hm.
    destruct Hm as [[-> _]|Hm].
    + subst m'. simpl in *. apply (c_winner db Hc stored Hin Hw).
    + apply (c_winner db Hc m Hm Hw).
  - intros i Hi. unfold get_match_by_id. simpl.
    apply get_match_update_some. apply in_app_or in Hi.
    destruct Hi as [Hi|Hi].
    + apply (c_match db Hc i Hi).
    + assert (E : Inning.match_id i = mid).
      { simpl in Hi. destruct Hi as [<-|[<-|[]]]; reflexivity. }
      rewrite E. unfold get_match_by_id in Hfound. congruence.
  - intros i Hi. apply in_app_or in Hi. destruct Hi as [Hi|Hi].
    + apply (c_teams db Hc i Hi).
    + simpl in Hi. destruct Hi as [<-|[<-|[]]]; simpl; auto.
Qed.

Lemma score_none_unchanged db mid d db' :
  record_delivery db mid d = Return None db' -> db' = db.
Proof.
  unfold record_delivery. intros H.
  destruct (find _ (innings db)) as [inning|]; [|inversion H; reflexivity].
  destruct (negb (Inning.match_id inning =? mid));
    [inversion H; reflexivity|].
  destruct (get_match_by_id db (Inning.match_id inning)) as [match_|];
    [|discriminate].
  destruct (MatchStatus_eqb (Match.status match_) COMPLETED
            || Inning.is_completed inning); [inversion H; reflexivity|].
  destruct (sorted_by_id _); [discriminate|].
  destruct (check_end _ _ _).
  repeat match type of H with
         | (if ?c then _ else _) = _ => destruct c
         end; discriminate.
Qed.

Lemma scored_match_winner a inning d match_ :
  Match.winner_id match_ = None ->
  Match.winner_id (scored_match a inning d match_) <> None ->
  Match.status (scored_match a inning d match_) = COMPLETED.
Proof.
  intros Hw. unfold scored_match. rewrite check_end_snd.
  destruct (mark_live_facts match_) as (_ & Hw' & _).
  set (i1 := update_inning_score inning d).
  destruct (Inning.id i1 =? Inning.id a).
  - rewrite Hw', Hw. congruence.
  - destruct (Inning.total_runs a <? Inning.total_runs i1); [reflexivity|].
    destruct ((10 <=? Inning.wickets i1) || (20 <=? Inning.overs_bowled i1)).
    + rewrite Hw', Hw. reflexivity.
    + rewrite Hw', Hw. congruence.
Qed.

Lemma consistent_score db mid d v db' :
  consistent db -> record_delivery db mid d = Return v db' ->
  consistent db'.
Proof.
  intros Hc H. destruct v as [dl|].
  2:{ apply score_none_unchanged in H. subst. exact Hc. }
  apply (scored_context db mid d dl db' Hc) in H.
  destruct H as (inning & match_ & a & b & Hg & Hin & Hid & Hmid & Hgm & Hmin
                 & Hmatch & Hs & Hw & Hcompl & Hab & Hlt & Ht1 & Ht2 & Hor
                 & Hdl & Hdb).
  set (i2 := scored_inning a inning d match_) in *.
  set (m2 := scored_match a inning d match_) in *.
  pose proof (scored_inning_fields a inning d match_) as F.
  cbv zeta in F. fold i2 in F.
  destruct F as (F1 & F2 & F3 & F4 & F5 & F6 & F7 & F8 & F9).
  assert (Hsame : forall x, In x (innings db) ->
                    Inning.id x = Inning.id i2 -> x = inning).
  { intros x Hx E. apply (keys_injective (innings db)); auto.
    - apply (c_keys db Hc).
    - congruence. }
  assert (Hdel : deliveries db' = deliveries db ++ [dl]).
  { subst db'. reflexivity. }
  assert (Hdlid : Delivery.inning_id dl = Inning.id inning
                  /\ Delivery.is_extra dl = DeliveryCreate.is_extra d).
  { subst dl. simpl. auto. }
  destruct Hdlid as [Hdlid Hdlx].
  split.
  - subst db'. simpl. rewrite update_inning_ids. apply (c_keys db Hc).
  - intros x Hx.
    assert (Hx' : In x (update_inning i2 (innings db))).
    { subst db'. exact Hx. }
    assert (Hseq : inning_seq db' = inning_seq db).
    { subst db'. reflexivity. }
    unfold inning_ok. rewrite Hseq.
    rewrite (legal_balls_snoc db db' dl (Inning.id x) Hdel).
    rewrite Hdlid, Hdlx.
    apply in_update_inning in Hx'.
    destruct Hx' as [[-> _]|[Hxin Hne]].
    + destruct (c_inning db Hc inning Hin)
        as (K1 & K2 & K3 & K4 & K5 & K6 & K7).
      rewrite F1, F6, F7, F8, F9, Z.eqb_refl, Hcompl.
      unfold inning_over. rewrite update_inning_score_eq.
      cbn -[Z.mul Z.add Z.leb Z.ltb Z.eqb].
      assert (Hw9 : Inning.wickets inning <= 9).
      { destruct (Z_le_gt_dec 10 (Inning.wickets inning)) as [L|L];
          [|lia]. apply K5 in L. congruence. }
      assert (Ho19 : Inning.overs_bowled inning <= 19).
      { destruct (Z_le_gt_dec 20 (Inning.overs_bowled inning)) as [L|L];
          [|lia]. apply K6 in L. congruence. }
      destruct (DeliveryCreate.is_extra d), (DeliveryCreate.is_wicket d);
        cbn -[Z.mul Z.add Z.leb Z.ltb Z.eqb];
        try (destruct (Inning.balls_bowled inning + 1 =? 6) eqn:E6;
             [apply Z.eqb_eq in E6|apply Z.eqb_neq in E6]);
        repeat split; try lia;
        intros L; apply orb_true_iff; left; apply orb_true_iff;
        solve [left; apply Z.leb_le; lia | right; apply Z.leb_le; lia].
    + destruct (c_inning db Hc x Hxin)
        as (K1 & K2 & K3 & K4 & K5 & K6 & K7).
      assert (E : (Inning.id inning =? Inning.id x) = false).
      { apply Z.eqb_neq. congruence. }
      rewrite E. cbn [andb]. repeat split; auto; lia.
  - intros x Hx. rewrite Hdel in Hx. subst db'. simpl.
    apply in_app_or in Hx. destruct Hx as [Hx|[<-|[]]].
    + apply (c_delivery db Hc x Hx).
    + rewrite Hdlid. apply (c_inning db Hc inning Hin).
  - intros m. unfold innings_paired. subst db'. simpl.
    rewrite match_innings_update.
    2:{ intros x Hx E. rewrite (Hsame x Hx E). congruence. }
    destruct (c_paired db Hc m) as [Hnil|(p & q & Hpq & Hl & T1 & T2)].
    + left. rewrite Hnil. reflexivity.
    + right. rewrite Hpq.
      assert (Hp : In p (innings db)).
      { apply (in_match_innings (innings db) m). rewrite Hpq. simpl. auto. }
      assert (Hq : In q (innings db)).
      { apply (in_match_innings (innings db) m). rewrite Hpq. simpl. auto. }
      eexists. eexists. split; [reflexivity|].
      destruct (Inning.id p =? Inning.id i2) eqn:Ep;
        destruct (Inning.id q =? Inning.id i2) eqn:Eq;
        try (apply Z.eqb_eq in Ep; pose proof (Hsame p Hp Ep); subst p);
        try (apply Z.eqb_eq in Eq; pose proof (Hsame q Hq Eq); subst q);
        rewrite ?F1, ?F3, ?F4; auto.
  - intros x Hx Hwx.
    assert (Hx' : In x (update_match m2 (matches db))).
    { subst db'. exact Hx. }
    apply in_update_match in Hx'. destruct Hx' as [[-> _]|Hx'].
    + apply scored_match_winner; auto.
    + apply (c_winner db Hc x Hx' Hwx).
  - intros x Hx.
    assert (Hx' : In x (update_inning i2 (innings db))).
    { subst db'. exact Hx. }
    assert (Hm' : Inning.match_id x = Inning.match_id inning
                  \/ In x (innings db)).
    { apply in_update_inning in Hx'. destruct Hx' as [[-> _]|[Hx' _]]; auto. }
    subst db'. unfold get_match_by_id. simpl. apply get_match_update_some.
    destruct Hm' as [E|Hold].
    + rewrite E. apply (c_match db Hc inning Hin).
    + apply (c_match db Hc x Hold).
  - intros x Hx.
    assert (Hx' : In x (update_inning i2 (innings db))).
    { subst db'. exact Hx. }
    assert (Ht : teams db' = teams db) by (subst db'; reflexivity).
    rewrite Ht. apply in_update_inning in Hx'.
    destruct Hx' as [[-> _]|[Hx' _]].
    + rewrite F3, F4. apply (c_teams db Hc inning Hin).
    + apply (c_teams db Hc x Hx').
Qed.

Lemma consistent_run_op db o : consistent db -> consistent (run_op db o).
Proof.
  intros Hc. destruct o as [t p r|sm si sd|m tid|mid t|mid d]; simpl.
  - apply (consistent_frame db); simpl; auto; try lia.
    + apply (c_winner db Hc).
    + intros x. apply mem_app.
  - apply (consistent_frame db); simpl; auto; try lia.
    apply (c_winner db Hc).
  - destruct (create_match db m tid) as [v db'|e] eqn:E; simpl; auto.
    apply (consistent_create_match db m tid v db' Hc E).
  - destruct (update_match_toss db mid t) as [v db'|e] eqn:E; simpl; auto.
    apply (consistent_toss db mid t v db' Hc E).
  - destruct (record_delivery db mid d) as [v db'|e] eqn:E; simpl; auto.
    apply (consistent_score db mid d v db' Hc E).
Qed.

Lemma reachable_induction (P : DB -> Prop) :
  P empty_db ->
  (forall db o, reachable db -> P db -> P (run_op db o)) ->
  forall db, reachable db -> P db.
Proof.
  intros H0 Hstep db [ops <-]. unfold run.
  induction ops as [|o ops IH] using rev_ind; simpl; [exact H0|].
  rewrite fold_left_app. simpl. apply Hstep; [|exact IH].
  exists ops. reflexivity.
Qed.

Lemma reachable_consistent db : reachable db -> consistent db.
Proof.
  revert db. apply reachable_induction.
  - apply consistent_empty.
  - intros db o _ Hc. apply consistent_run_op. exact Hc.
Qed.

Lemma scored_match_id a inning d match_ :
  Match.id (scored_match a inning d match_) = Match.id match_.
Proof.
  unfold scored_match. rewrite check_end_snd.
  destruct (mark_live_facts match_) as (Hid & _).
  repeat match goal with
         | |- context [if ?c then _ else _] => destruct c
         end; simpl; exact Hid.
Qed.

Lemma scored_view db mid d dl db' :
  consistent db ->
  record_delivery db mid d = Return (Some dl) db' ->
  exists inning match_ a b, scoring db mid d db' inning match_ a b.
Proof.
  intros Hc H. apply (scored_context db mid d dl db' Hc) in H.
  destruct H as (inning & match_ & a & b & Hg & Hin & Hid & Hmid & Hgm & Hmin
                 & Hmatch & Hs & Hw & Hcompl & Hab & Hlt & Ht1 & Ht2 & Hor
                 & Hdl & Hdb).
  exists inning, match_, a, b.
  written_fields a inning d match_.
  assert (Hpair' : match_innings (innings db') mid
                   = update_inning (scored_inning a inning d match_) [a; b]).
  { subst db'. simpl. rewrite match_innings_update; [rewrite Hab; reflexivity|].
    intros x Hx E. rewrite F2. f_equal.
    apply (keys_injective (innings db)); auto.
    - apply (c_keys db Hc).
    - congruence. }
  split; auto.
  - apply (c_inning db Hc inning Hin).
  - unfold first_inning. rewrite Hab, sorted_by_id_pair; auto.
  - subst db'. unfold get_inning in *. simpl.
    rewrite find_update_inning, F1, Hid, Z.eqb_refl, Hg. reflexivity.
  - subst db'. unfold get_match_by_id in *. simpl.
    rewrite find_update_match, scored_match_id, Hmatch, Z.eqb_refl, Hgm.
    reflexivity.
  - subst db'. reflexivity.
  - subst db' dl. reflexivity.
Qed.



(** ** The first inning after a recorded delivery *)

Section Scored.

Variables (db : DB) (mid : Z) (d : DeliveryCreate.t) (db' : DB).
Variables (inning : Inning.t) (match_ : Match.t) (a b : Inning.t).
Hypothesis S : scoring db mid d db' inning match_ a b.

Lemma scoring_first_after :
  first_inning db' mid
  = Some (if Inning.id a =? Inning.id inning
          then scored_inning a inning d match_ else a).
Proof.
  pose proof S as S'.
  destruct S' as [S1 S2 S3 S4 S5 S6 S7 S8 S9 S10 S11 S12 S13 S14 S15 S16 S17].
  written_fields a inning d match_.
  unfold first_inning. rewrite S15. simpl. rewrite F1.
  destruct (Inning.id a =? Inning.id inning) eqn:Ea;
    destruct (Inning.id b =? Inning.id inning) eqn:Eb;
    try apply Z.eqb_eq in Ea; try apply Z.eqb_eq in Eb;
    rewrite sorted_by_id_pair; try reflexivity; lia.
Qed.

(** When the row written back is not the first inning of the match, the
    target was the second inning [b] and the first inning [a] is untouched. *)
Lemma scoring_second first inning' :
  first_inning db' mid = Some first ->
  get_inning db' (DeliveryCreate.inning_id d) = Some inning' ->
  Inning.id inning' <> Inning.id first ->
  first = a /\ inning = b
  /\ inning' = scored_inning a inning d match_
  /\ (Inning.id (update_inning_score inning d) =? Inning.id a) = false.
Proof.
  intros Hfirst Hget Hne.
  rewrite scoring_first_after in Hfirst.
  pose proof S as S'.
  destruct S' as [S1 S2 S3 S4 S5 S6 S7 S8 S9 S10 S11 S12 S13 S14 S15 S16 S17].
  rewrite S13 in Hget. inversion Hget; subst inning'; clear Hget.
  written_fields a inning d match_.
  destruct (Inning.id a =? Inning.id inning) eqn:Ea.
  - inversion Hfirst. congruence.
  - inversion Hfirst; subst first. apply Z.eqb_neq in Ea.
    repeat split.
    + destruct S11 as [E|E]; congruence.
    + apply Z.eqb_neq. rewrite update_inning_score_eq. simpl. congruence.
Qed.

End Scored.

(** * The scoring properties *)

(** C1. On a reachable database, when a recorded delivery leaves the
    second-batted inning (its id is not that of the first inning of the match)
    with more runs than the first inning, that inning is completed, the match
    winner is its batting team and the match status is Completed, whatever
    its wickets and overs. *)
Theorem C1_chase_completes_match db mid d dl db' first inning' :
  reachable db ->
  record_delivery db mid d = Return (Some dl) db' ->
  first_inning db' mid = Some first ->
  get_inning db' (DeliveryCreate.inning_id d) = Some inning' ->
  Inning.id inning' <> Inning.id first ->
  Inning.total_runs first < Inning.total_runs inning' ->
  Inning.is_completed inning' = true
  /\ exists match', get_match_by_id db' mid = Some match'
       /\ Match.winner_id match' = Some (Inning.batting_team_id inning')
       /\ Match.status match' = COMPLETED.
Proof.
  intros Hr H Hfirst Hget Hne Hlt.
  apply reachable_consistent in Hr.
  destruct (scored_view db mid d dl db' Hr H) as (inning & match_ & a & b & S).
  destruct (scoring_second _ _ _ _ _ _ _ _ S _ _ Hfirst Hget Hne)
    as (-> & -> & -> & Hid1).
  destruct S as [S1 S2 S3 S4 S5 S6 S7 S8 S9 S10 S11 S12 S13 S14 S15 S16 S17].
  written_fields a b d match_.
  assert (Hruns : (Inning.total_runs a
                   <? Inning.total_runs (update_inning_score b d)) = true).
  { apply Z.ltb_lt. rewrite update_inning_score_eq. simpl. lia. }
  split.
  - rewrite F9. unfold inning_over. rewrite Hid1, Hruns. simpl.
    rewrite !orb_true_r. reflexivity.
  - exists (scored_match a b d match_). split; [exact S14|].
    unfold scored_match. rewrite check_end_snd, Hid1, Hruns. simpl.
    rewrite F3. rewrite update_inning_score_eq. simpl. auto.
Qed.

Lemma C1_witness :
  exists inning' match',
    get_inning
      (db_after (run first_scored)
         (record_delivery (run first_scored) 1 (ball 2 3 false false))) 2
    = Some inning'
    /\ get_match_by_id
         (db_after (run first_scored)
            (record_delivery (run first_scored) 1 (ball 2 3 false false))) 1
       = Some match'
    /\ Inning.wickets inning' = 0 /\ Inning.overs_bowled inning' = 0
    /\ Inning.is_completed inning' = true
    /\ Match.winner_id match' = Some 2
    /\ Match.status match' = COMPLETED.
Proof.
  destruct (C1_chase_completes_match (run first_scored) 1
              (ball 2 3 false false)
              (delivery_row (run first_scored) (ball 2 3 false false))
              (db_after (run first_scored)
                 (record_delivery (run first_scored) 1
                    (ball 2 3 false false)))
              (Inning.mk 1 1 1 2 2 0 0 1 false)
              (Inning.mk 2 1 2 1 3 0 0 1 true))
    as [Hc [match' [Hm [Hw Hs]]]].
  - exists first_scored. reflexivity.
  - vm_compute. reflexivity.
  - vm_compute. reflexivity.
  - vm_compute. reflexivity.
  - simpl. lia.
  - simpl. lia.
  - exists (Inning.mk 2 1 2 1 3 0 0 1 true), match'.
    split; [vm_compute; reflexivity|].
    split; [exact Hm|].
    split; [reflexivity|]. split; [reflexivity|].
    split; [exact Hc|]. split; [exact Hw|exact Hs].
Defined.

(** C2. On a reachable database, when a recorded delivery brings the
    second-batted inning to its natural end (ten wickets or twenty overs), the
    match status is Completed; if the first inning has more runs the winner
    is the first inning's batting team, which is the second inning's bowling
    team; if the second inning has more runs the winner is its batting team;
    if the totals are equal no winner is assigned. *)
Theorem C2_natural_completion_winner db mid d dl db' first inning' :
  reachable db ->
  record_delivery db mid d = Return (Some dl) db' ->
  first_inning db' mid = Some first ->
  get_inning db' (DeliveryCreate.inning_id d) = Some inning' ->
  Inning.id inning' <> Inning.id first ->
  10 <= Inning.wickets inning' \/ 20 <= Inning.overs_bowled inning' ->
  exists match',
    get_match_by_id db' mid = Some match'
    /\ Match.status match' = COMPLETED
    /\ (Inning.total_runs inning' < Inning.total_runs first ->
        Match.winner_id match' = Some (Inning.batting_team_id first)
        /\ Inning.batting_team_id first = Inning.bowling_team_id inning')
    /\ (Inning.total_runs first < Inning.total_runs inning' ->
        Match.winner_id match' = Some (Inning.batting_team_id inning'))
    /\ (Inning.total_runs first = Inning.total_runs inning' ->
        Match.winner_id match' = None).
Proof.
  intros Hr H Hfirst Hget Hne Hend.
  apply reachable_consistent in Hr.
  destruct (scored_view db mid d dl db' Hr H) as (inning & match_ & a & b & S).
  destruct (scoring_second _ _ _ _ _ _ _ _ S _ _ Hfirst Hget Hne)
    as (-> & -> & -> & Hid1).
  destruct S as [S1 S2 S3 S4 S5 S6 S7 S8 S9 S10 S11 S12 S13 S14 S15 S16 S17].
  written_fields a b d match_.
  pose proof (update_inning_score_eq b d) as U.
  destruct (mark_live_facts match_) as (_ & Hw' & _).
  exists (scored_match a b d match_). split; [exact S14|].
  unfold scored_match. rewrite check_end_snd, Hid1, Hw', S5.
  assert (Hover : (10 <=? Inning.wickets (update_inning_score b d))
                  || (20 <=? Inning.overs_bowled (update_inning_score b d))
                  = true).
  { rewrite U. cbn -[Z.add Z.leb]. rewrite <- F6, <- F7.
    apply orb_true_iff. destruct Hend; [left|right]; apply Z.leb_le; auto. }
  rewrite Hover.
  assert (Ht : Inning.total_runs (update_inning_score b d)
               = Inning.total_runs (scored_inning a b d match_)).
  { rewrite U, F5. reflexivity. }
  assert (Hbt : Inning.batting_team_id (update_inning_score b d)
                = Inning.batting_team_id (scored_inning a b d match_)
                /\ Inning.bowling_team_id (update_inning_score b d)
                   = Inning.bowling_team_id (scored_inning a b d match_)).
  { rewrite U, F3, F4. simpl. auto. }
  destruct Hbt as [Hbt Hbw]. rewrite Ht, Hbt, Hbw.
  set (i' := scored_inning a b d match_) in *.
  destruct (Inning.total_runs a <? Inning.total_runs i') eqn:E1.
  - apply Z.ltb_lt in E1. simpl. repeat split; try lia; auto.
  - apply Z.ltb_ge in E1. simpl.
    destruct (Inning.total_runs i' <? Inning.total_runs a) eqn:E2.
    + apply Z.ltb_lt in E2. simpl. repeat split; try lia.
      f_equal. rewrite F4. symmetry. apply S10.
    + apply Z.ltb_ge in E2. destruct (mark_live_facts match_) as (_ & Hw'' & _).
      simpl. rewrite Hw'', S5. repeat split; try lia; auto.
Qed.

Lemma C2_witness :
  exists match',
    get_match_by_id
      (db_after (run nine_down)
         (record_delivery (run nine_down) 1 (ball 2 0 true false))) 1
    = Some match'
    /\ Match.status match' = COMPLETED
    /\ Match.winner_id match' = Some 1.
Proof.
  destruct (C2_natural_completion_winner (run nine_down) 1
              (ball 2 0 true false)
              (delivery_row (run nine_down) (ball 2 0 true false))
              (db_after (run nine_down)
                 (record_delivery (run nine_down) 1 (ball 2 0 true false)))
              (Inning.mk 1 1 1 2 10 10 1 4 true)
              (Inning.mk 2 1 2 1 0 10 1 4 true))
    as [match' [Hm [Hs [Hw _]]]].
  - exists nine_down. reflexivity.
  - vm_compute. reflexivity.
  - vm_compute. reflexivity.
  - vm_compute. reflexivity.
  - simpl. lia.
  - left. simpl. lia.
  - exists match'. repeat split; auto. apply Hw. simpl. lia.
Defined.

(** The tie: the second inning is all out level with the first; the call
    returns, the match is Completed and has no winner. *)
Example tie_completes_without_winner :
  get_match_by_id (run tied) 1
  = Some (Match.mk 1 0 None COMPLETED (Some 1) 1 2 (Some 1) (Some BAT) None)
  /\ List.length (deliveries (run tied)) = 20%nat.
Proof. split; vm_compute; reflexivity. Qed.



Lemma recorded_inning db mid d dl db' :
  record_delivery db mid d = Return (Some dl) db' ->
  exists inning match_ first,
    get_inning db (DeliveryCreate.inning_id d) = Some inning
    /\ Inning.is_completed inning = false
    /\ get_inning db' (DeliveryCreate.inning_id d)
       = Some (scored_inning first inning d match_).
Proof.
  intros H. apply record_delivery_inv in H.
  destruct H as (inning & match_ & first & Hg & _ & _ & _ & Hcompl & _ & _
                 & Hdb).
  exists inning, match_, first. repeat split; auto.
  written_fields first inning d match_.
  pose proof Hg as Hid. unfold get_inning in Hid.
  apply find_inning_id in Hid. destruct Hid as [Hid _].
  subst db'. unfold get_inning in *. simpl.
  rewrite find_update_inning, F1, Hid, Z.eqb_refl, Hg. reflexivity.
Qed.

(** C4. On a reachable database, a recorded legal delivery adds one ball,
    and the sixth ball of an over resets [balls_bowled] to 0 and adds one
    over; a recorded extra leaves both counters as they were.  After the
    delivery [balls_bowled] is between 0 and 5, and the two counters are the
    remainder and the quotient by 6 of the number of legal deliveries
    recorded against the inning. *)
Theorem C4_ball_over_accounting db mid d dl db' inning inning' :
  reachable db ->
  record_delivery db mid d = Return (Some dl) db' ->
  get_inning db (DeliveryCreate.inning_id d) = Some inning ->
  get_inning db' (DeliveryCreate.inning_id d) = Some inning' ->
  (DeliveryCreate.is_extra d = false ->
   (Inning.balls_bowled inning + 1 = 6 ->
    Inning.balls_bowled inning' = 0
    /\ Inning.overs_bowled inning' = Inning.overs_bowled inning + 1)
   /\ (Inning.balls_bowled inning + 1 <> 6 ->
       Inning.balls_bowled inning' = Inning.balls_bowled inning + 1
       /\ Inning.overs_bowled inning' = Inning.overs_bowled inning))
  /\ (DeliveryCreate.is_extra d = true ->
      Inning.balls_bowled inning' = Inning.balls_bowled inning
      /\ Inning.overs_bowled inning' = Inning.overs_bowled inning)
  /\ 0 <= Inning.balls_bowled inning' <= 5
  /\ Inning.balls_bowled inning' = legal_balls db' (Inning.id inning') mod 6
  /\ Inning.overs_bowled inning' = legal_balls db' (Inning.id inning') / 6.
Proof.
  intros Hr H Hg Hg'.
  apply reachable_consistent in Hr.
  pose proof (consistent_score db mid d (Some dl) db' Hr H) as Hc'.
  destruct (c_inning db' Hc' inning' (get_inning_in db' _ _ Hg'))
    as (_ & Kb & _ & _ & _ & _ & Klegal).
  destruct (recorded_inning db mid d dl db' H)
    as (inning0 & match_ & first & Hg0 & _ & Hg0').
  rewrite Hg in Hg0. inversion Hg0; subst inning0; clear Hg0.
  rewrite Hg' in Hg0'. inversion Hg0'; subst inning'; clear Hg0'.
  written_fields first inning d match_.
  set (i' := scored_inning first inning d match_) in *.
  split; [|split; [|split; [|split]]].
  - intros Hx. rewrite F7, F8, Hx. split; intros H6.
    + apply Z.eqb_eq in H6. rewrite H6. auto.
    + apply Z.eqb_neq in H6. rewrite H6. auto.
  - intros Hx. rewrite F7, F8, Hx. auto.
  - lia.
  - apply Z.mod_unique with (q := Inning.overs_bowled i'); lia.
  - apply Z.div_unique with (r := Inning.balls_bowled i'); lia.
Qed.

Lemma C4_witness :
  exists inning',
    get_inning
      (db_after (run five_balls)
         (record_delivery (run five_balls) 1 (ball 1 0 false false))) 1
    = Some inning'
    /\ Inning.balls_bowled inning' = 0
    /\ Inning.overs_bowled inning' = 1.
Proof.
  destruct (C4_ball_over_accounting (run five_balls) 1 (ball 1 0 false false)
              (delivery_row (run five_balls) (ball 1 0 false false))
              (db_after (run five_balls)
                 (record_delivery (run five_balls) 1 (ball 1 0 false false)))
              (Inning.mk 1 1 1 2 5 0 0 5 false)
              (Inning.mk 1 1 1 2 5 0 1 0 false))
    as (Hlegal & _).
  - exists five_balls. reflexivity.
  - vm_compute. reflexivity.
  - vm_compute. reflexivity.
  - vm_compute. reflexivity.
  - exists (Inning.mk 1 1 1 2 5 0 1 0 false).
    destruct (Hlegal eq_refl) as [Hsix _].
    destruct (Hsix eq_refl) as [Hb Ho].
    repeat split; auto.
Defined.

(** C8. A recorded delivery adds to the target inning's [total_runs]
    exactly [runs_scored], plus 1 when [is_extra]; hence with
    [runs_scored >= 0] the total does not decrease. *)
Theorem C8_total_runs_increment db mid d dl db' inning inning' :
  record_delivery db mid d = Return (Some dl) db' ->
  get_inning db (DeliveryCreate.inning_id d) = Some inning ->
  get_inning db' (DeliveryCreate.inning_id d) = Some inning' ->
  Inning.total_runs inning'
  = Inning.total_runs inning + DeliveryCreate.runs_scored d
    + (if DeliveryCreate.is_extra d then 1 else 0)
  /\ (0 <= DeliveryCreate.runs_scored d ->
      Inning.total_runs inning <= Inning.total_runs inning').
Proof.
  intros H Hg Hg'.
  destruct (recorded_inning db mid d dl db' H)
    as (inning0 & match_ & first & Hg0 & _ & Hg0').
  rewrite Hg in Hg0. inversion Hg0; subst inning0; clear Hg0.
  rewrite Hg' in Hg0'. inversion Hg0'; subst inning'; clear Hg0'.
  written_fields first inning d match_.
  split; [exact F5|].
  intros Hpos. rewrite F5. destruct (DeliveryCreate.is_extra d); lia.
Qed.

Lemma C8_witness :
  exists inning',
    get_inning
      (db_after (run first_scored)
         (record_delivery (run first_scored) 1 (ball 1 4 false true))) 1
    = Some inning'
    /\ Inning.total_runs inning' = 7.
Proof.
  destruct (C8_total_runs_increment (run first_scored) 1 (ball 1 4 false true)
              (delivery_row (run first_scored) (ball 1 4 false true))
              (db_after (run first_scored)
                 (record_delivery (run first_scored) 1 (ball 1 4 false true)))
              (Inning.mk 1 1 1 2 2 0 0 1 false)
              (Inning.mk 1 1 1 2 7 0 0 1 false))
    as (Hruns & _).
  - vm_compute. reflexivity.
  - vm_compute. reflexivity.
  - vm_compute. reflexivity.
  - exists (Inning.mk 1 1 1 2 7 0 0 1 false). split; [reflexivity|].
    rewrite Hruns. reflexivity.
Defined.

(** C9. On a reachable database every inning has at most 10 wickets, an
    inning with 10 wickets is completed, and a completed inning accepts no
    further delivery. *)
Theorem C9_wickets_at_most_ten db i :
  reachable db ->
  In i (innings db) ->
  Inning.wickets i <= 10
  /\ (Inning.wickets i = 10 -> Inning.is_completed i = true)
  /\ (Inning.is_completed i = true ->
      forall mid d dl db',
        DeliveryCreate.inning_id d = Inning.id i ->
        record_delivery db mid d <> Return (Some dl) db').
Proof.
  intros Hr Hin. apply reachable_consistent in Hr.
  destruct (c_inning db Hr i Hin) as (_ & _ & Kw & _ & Kc & _).
  repeat split; try lia.
  - intros E. apply Kc. lia.
  - intros Hcompl mid d dl db' Hid H.
    destruct (recorded_inning db mid d dl db' H)
      as (inning & _ & _ & Hg & Hopen & _).
    pose proof (get_inning_in db _ _ Hg) as Hin'.
    unfold get_inning in Hg. apply find_inning_id in Hg.
    destruct Hg as [Hid' _].
    assert (inning = i).
    { apply (keys_injective (innings db)); auto.
      - apply (c_keys db Hr).
      - congruence. }
    subst inning. congruence.
Qed.

Lemma C9_witness :
  Inning.wickets (Inning.mk 2 1 2 1 0 10 1 4 true) <= 10
  /\ Inning.is_completed (Inning.mk 2 1 2 1 0 10 1 4 true) = true
  /\ record_delivery (run all_out) 1 (ball 2 1 false false)
     = Return None (run all_out).
Proof.
  destruct (C9_wickets_at_most_ten (run all_out)
              (Inning.mk 2 1 2 1 0 10 1 4 true))
    as (Hw & Hc & _).
  - exists all_out. reflexivity.
  - vm_compute. right. left. reflexivity.
  - split; [exact Hw|]. split; [apply Hc; reflexivity|].
    vm_compute. reflexivity.
Defined.

(** C5, as the code has it.  A toss or a delivery that violates one of its
    preconditions leaves every table unchanged and returns [None]: one and
    the same value whichever precondition failed. *)
Theorem C5_violation_returns_none db o k :
  violation db o = Some k ->
  returns_none db o /\ run_op db o = db.
Proof.
  intros H.
  assert (Hn : returns_none db o).
  { destruct o as [tm pl tr|sm si sd|m tid|mid t|mid d]; simpl in *;
      try discriminate.
    - unfold update_match_toss.
      destruct (get_match_by_id db mid) as [m|]; [|discriminate].
      destruct (match_innings (innings db) (Match.id m));
        [discriminate|reflexivity].
    - unfold record_delivery. unfold get_inning in H.
      destruct (find _ (innings db)) as [i|]; [|reflexivity].
      destruct (negb (Inning.match_id i =? mid)) eqn:Em; [reflexivity|].
      apply negb_false_iff, Z.eqb_eq in Em. rewrite Em.
      destruct (get_match_by_id db mid) as [m|]; [|discriminate].
      destruct (MatchStatus_eqb (Match.status m) COMPLETED); [reflexivity|].
      destruct (Inning.is_completed i); [reflexivity|discriminate]. }
  split; [exact Hn|].
  destruct o as [tm pl tr|sm si sd|m tid|mid t|mid d]; simpl in *;
    try contradiction; rewrite Hn; reflexivity.
Qed.

Lemma C5_witness :
  record_delivery (run first_all_out) 1 (ball 1 0 false false)
  = Return None (run first_all_out).
Proof.
  destruct (C5_violation_returns_none (run first_all_out)
              (Score 1 (ball 1 0 false false)) InningAlreadyCompleted)
    as [Hn _].
  - vm_compute. reflexivity.
  - exact Hn.
Defined.

(** C5 as stated fails: a delivery for a missing inning and a delivery for
    a completed inning violate different preconditions and get the same
    answer, so no error kind can be read off what the call returns. *)
Lemma C5_counterexample :
  violation (run first_all_out) (Score 1 (ball 9 0 false false))
  = Some InningNotFound
  /\ violation (run first_all_out) (Score 1 (ball 1 0 false false))
     = Some InningAlreadyCompleted
  /\ record_delivery (run first_all_out) 1 (ball 9 0 false false)
     = record_delivery (run first_all_out) 1 (ball 1 0 false false)
  /\ ~ (exists kind_of : result (option Delivery.t) -> option ErrorKind,
          forall db mid d k,
            violation db (Score mid d) = Some k ->
            kind_of (record_delivery db mid d) = Some k).
Proof.
  assert (H1 : violation (run first_all_out) (Score 1 (ball 9 0 false false))
               = Some InningNotFound) by (vm_compute; reflexivity).
  assert (H2 : violation (run first_all_out) (Score 1 (ball 1 0 false false))
               = Some InningAlreadyCompleted) by (vm_compute; reflexivity).
  assert (H3 : record_delivery (run first_all_out) 1 (ball 9 0 false false)
               = record_delivery (run first_all_out) 1 (ball 1 0 false false))
    by (vm_compute; reflexivity).
  split; [exact H1|]. split; [exact H2|]. split; [exact H3|].
  intros [kind_of Hk].
  pose proof (Hk _ _ _ _ H1) as K1.
  pose proof (Hk _ _ _ _ H2) as K2.
  rewrite H3 in K1. rewrite K1 in K2. discriminate.
Qed.

(** C10, as the code has it.  The check that the toss winner is one of the
    two teams of the match is made by the endpoint [record_toss] before it
    calls [update_match_toss]: the request is rejected with status 400 and
    no table changes.  [update_match_toss] has no such check: called on a
    match without innings with a winner that is another existing team, it
    records the toss and creates both innings, [team1] being the other side. *)
Theorem C10_endpoint_rejects_foreign_toss_winner db mid t stored :
  get_match_by_id db mid = Some stored ->
  TossData.toss_winner_id t <> Match.team1_id stored ->
  TossData.toss_winner_id t <> Match.team2_id stored ->
  Main.record_toss db mid t = Raise (HTTPException 400)
  /\ db_after db (Main.record_toss db mid t) = db
  /\ (match_innings (innings db) mid = [] ->
      mem (TossData.toss_winner_id t) (teams db) = true ->
      mem (Match.team1_id stored) (teams db) = true ->
      exists m' db',
        update_match_toss db mid t = Return (Some m') db'
        /\ Match.toss_winner_id m' = Some (TossData.toss_winner_id t)
        /\ innings db' =
           innings db ++
           match TossData.decision t with
           | BAT =>
               [Inning.mk (inning_seq db) mid (TossData.toss_winner_id t)
                  (Match.team1_id stored) 0 0 0 0 false;
                Inning.mk (inning_seq db + 1) mid (Match.team1_id stored)
                  (TossData.toss_winner_id t) 0 0 0 0 false]
           | FIELD =>
               [Inning.mk (inning_seq db) mid (Match.team1_id stored)
                  (TossData.toss_winner_id t) 0 0 0 0 false;
                Inning.mk (inning_seq db + 1) mid (TossData.toss_winner_id t)
                  (Match.team1_id stored) 0 0 0 0 false]
           end).
Proof.
  intros Hg H1 H2.
  assert (E : Main.record_toss db mid t = Raise (HTTPException 400)).
  { unfold Main.record_toss. rewrite Hg. unfold mem. simpl.
    apply Z.eqb_neq in H1, H2. rewrite H1, H2. reflexivity. }
  rewrite E. split; [reflexivity|]. split; [reflexivity|].
  intros Hnil Hw Ht1.
  pose proof Hg as Hid. unfold get_match_by_id in Hid.
  apply find_match_id in Hid. destruct Hid as [Hid _].
  unfold update_match_toss. rewrite Hg, Hid, Hnil.
  unfold first_batting_team_id, first_bowling_team_id, toss_loser_id,
    fk_written, fk_opt.
  apply Z.eqb_neq in H1.
  cbn [Match.set_toss Match.team1_id Match.team2_id Match.toss_winner_id
       Inning.batting_team_id Inning.bowling_team_id].
  rewrite H1.
  destruct (TossData.decision t); cbn [TossDecision_eqb];
    rewrite Hw, Ht1, orb_true_r; cbn [andb];
    eexists; eexists; (split; [reflexivity|]); split; reflexivity.
Qed.

Lemma C10_witness :
  Main.record_toss (run match_created) 1 (TossData.mk 3 BAT)
  = Raise (HTTPException 400)
  /\ exists m' db',
       update_match_toss (run match_created) 1 (TossData.mk 3 BAT)
       = Return (Some m') db'
       /\ innings db'
          = [Inning.mk 1 1 3 1 0 0 0 0 false; Inning.mk 2 1 1 3 0 0 0 0 false].
Proof.
  destruct (C10_endpoint_rejects_foreign_toss_winner (run match_created) 1
              (TossData.mk 3 BAT)
              (Match.mk 1 0 None SCHEDULED (Some 1) 1 2 None None None))
    as (H & _ & Hcore).
  - vm_compute. reflexivity.
  - simpl. lia.
  - simpl. lia.
  - split; [exact H|].
    destruct Hcore as (m' & db' & Hr & _ & Hi);
      [reflexivity|reflexivity|reflexivity|].
    exists m', db'. split; [exact Hr|exact Hi].
Defined.

(** C10 as stated fails: called with team 3 as toss winner of the match
    between teams 1 and 2, [update_match_toss] records the toss and creates
    both innings, team 3 batting first against team 1. *)
Lemma C10_counterexample :
  get_match_by_id (run match_created) 1
  = Some (Match.mk 1 0 None SCHEDULED (Some 1) 1 2 None None None)
  /\ update_match_toss (run match_created) 1 (TossData.mk 3 BAT)
     = Return
         (Some (Match.mk 1 0 None SCHEDULED (Some 1) 1 2 (Some 3) (Some BAT)
                  None))
         (mkDB [1; 2; 3] [1; 2] [1]
            [Match.mk 1 0 None SCHEDULED (Some 1) 1 2 (Some 3) (Some BAT)
               None]
            [Inning.mk 1 1 3 1 0 0 0 0 false;
             Inning.mk 2 1 1 3 0 0 0 0 false]
            [] 2 3 1).
Proof. split; vm_compute; reflexivity. Qed.

(** C6, as the code has it.  On a reachable database, a recorded delivery
    leaves the match Completed only when it targets the second-batted inning
    and completes it.  The first inning is not looked at beyond its total:
    its row is left as it was, so it is completed afterwards exactly when
    it was completed before the delivery. *)
Theorem C6_completed_only_by_second_inning db mid d dl db' match' :
  reachable db ->
  record_delivery db mid d = Return (Some dl) db' ->
  get_match_by_id db' mid = Some match' ->
  Match.status match' = COMPLETED ->
  exists first inning',
    first_inning db mid = Some first
    /\ first_inning db' mid = Some first
    /\ get_inning db' (DeliveryCreate.inning_id d) = Some inning'
    /\ Inning.id inning' <> Inning.id first
    /\ Inning.is_completed inning' = true.
Proof.
  intros Hr H Hgm Hst.
  apply reachable_consistent in Hr.
  destruct (scored_view db mid d dl db' Hr H) as (inning & match_ & a & b & S).
  pose proof (scoring_first_after _ _ _ _ _ _ _ _ S) as Hfirst'.
  destruct S as [S1 S2 S3 S4 S5 S6 S7 S8 S9 S10 S11 S12 S13 S14 S15 S16 S17].
  rewrite S14 in Hgm. inversion Hgm; subst match'; clear Hgm.
  written_fields a inning d match_.
  destruct (mark_live_facts match_) as (_ & _ & Hlive).
  specialize (Hlive S4).
  unfold scored_match in Hst. rewrite check_end_snd in Hst.
  assert (Hid1 : Inning.id (update_inning_score inning d) = Inning.id inning).
  { rewrite update_inning_score_eq. reflexivity. }
  rewrite Hid1 in Hst.
  destruct (Inning.id inning =? Inning.id a) eqn:Ea; [congruence|].
  apply Z.eqb_neq in Ea.
  assert (Ea' : (Inning.id a =? Inning.id inning) = false).
  { apply Z.eqb_neq. congruence. }
  rewrite Ea' in Hfirst'.
  exists a, (scored_inning a inning d match_).
  repeat split; auto; [congruence|].
  rewrite F9, S6. unfold inning_over. rewrite Hid1.
  apply Z.eqb_neq in Ea. rewrite Ea. simpl.
  destruct (Inning.total_runs a
            <? Inning.total_runs (update_inning_score inning d));
    [apply orb_true_r|].
  destruct ((10 <=? Inning.wickets (update_inning_score inning d))
            || (20 <=? Inning.overs_bowled (update_inning_score inning d)));
    [reflexivity|congruence].
Qed.

Lemma C6_witness :
  exists inning',
    get_inning
      (db_after (run first_all_out)
         (record_delivery (run first_all_out) 1 (ball 2 11 false false))) 2
    = Some inning'
    /\ Inning.is_completed inning' = true.
Proof.
  destruct (C6_completed_only_by_second_inning (run first_all_out) 1
              (ball 2 11 false false)
              (delivery_row (run first_all_out) (ball 2 11 false false))
              (db_after (run first_all_out)
                 (record_delivery (run first_all_out) 1
                    (ball 2 11 false false)))
              (Match.mk 1 0 None COMPLETED (Some 1) 1 2 (Some 1) (Some BAT)
                 (Some 2)))
    as (first & inning' & _ & _ & Hg & _ & Hc).
  - exists first_all_out. reflexivity.
  - vm_compute. reflexivity.
  - vm_compute. reflexivity.
  - reflexivity.
  - exists inning'. split; [exact Hg|exact Hc].
Defined.

(** C6 as stated fails: right after the toss, one run scored against
    inning 2 passes inning 1's total of 0; the match is Completed and won by
    team 2 while inning 1 is not completed. *)
Lemma C6_counterexample :
  reachable (run after_toss)
  /\ record_delivery (run after_toss) 1 (ball 2 1 false false)
     = Return (Some (Delivery.mk 1 2 1 2 1 false None false None))
         (mkDB [1; 2; 3] [1; 2] [1]
            [Match.mk 1 0 None COMPLETED (Some 1) 1 2 (Some 1) (Some BAT)
               (Some 2)]
            [Inning.mk 1 1 1 2 0 0 0 0 false;
             Inning.mk 2 1 2 1 1 0 0 1 true]
            [Delivery.mk 1 2 1 2 1 false None false None] 2 3 2).
Proof.
  split; [exists after_toss; reflexivity|vm_compute; reflexivity].
Qed.

Lemma deliveries_of_fresh db x :
  consistent db -> inning_seq db <= x -> deliveries_of db x = [].
Proof.
  intros Hc Hx. unfold deliveries_of. apply filter_none.
  intros d Hd. apply Z.eqb_neq. pose proof (c_delivery db Hc d Hd). lia.
Qed.



Lemma get_inning_of_in db i :
  consistent db -> In i (innings db) -> get_inning db (Inning.id i) = Some i.
Proof.
  intros Hc Hin. unfold get_inning.
  destruct (find (fun x => Inning.id x =? Inning.id i) (innings db))
    as [x|] eqn:E.
  - apply find_inning_id in E. destruct E as [Eid Hx]. f_equal.
    apply (keys_injective (innings db)); auto. apply (c_keys db Hc).
  - pose proof (find_none _ _ E i Hin) as Hn. simpl in Hn.
    rewrite Z.eqb_refl in Hn. discriminate.
Qed.




(** * More of the scoring engine *)

(** ** Every operation has one of four effects *)

Lemma scored_full db mid d dl db' :
  consistent db ->
  record_delivery db mid d = Return (Some dl) db' ->
  exists inning match_ a b,
    scoring db mid d db' inning match_ a b
    /\ db' = mkDB (teams db) (players db) (tournaments db)
               (update_match (scored_match a inning d match_) (matches db))
               (update_inning (scored_inning a inning d match_) (innings db))
               (deliveries db ++ [delivery_row db d])
               (match_seq db) (inning_seq db) (delivery_seq db + 1).
Proof.
  intros Hc H.
  destruct (scored_view db mid d dl db' Hc H) as (i2 & m2 & a2 & b2 & S).
  apply (scored_context db mid d dl db' Hc) in H.
  destruct H as (inning & match_ & a & b & Hg & _ & _ & _ & Hgm & _ & _ & _
                 & _ & _ & Hab & _ & _ & _ & _ & Hdl & Hdb).
  pose proof (sc_inning _ _ _ _ _ _ _ _ S) as E1.
  pose proof (sc_match _ _ _ _ _ _ _ _ S) as E2.
  pose proof (sc_pair _ _ _ _ _ _ _ _ S) as E3.
  rewrite Hg in E1. rewrite Hgm in E2. rewrite Hab in E3.
  inversion E1; inversion E2; inversion E3; subst i2 m2 a2 b2.
  exists inning, match_, a, b. split; [exact S|]. subst dl. exact Hdb.
Qed.

Lemma effect_refl db : effect db db.
Proof. apply eff_frame; auto; lia. Qed.

Lemma run_op_effect db o : consistent db -> effect db (run_op db o).
Proof.
  intros Hc. destruct o as [t p r|sm si sd|m tid|mid t|mid d]; simpl.
  - apply eff_frame; simpl; auto; try lia. intros x. apply mem_app.
  - apply eff_frame; simpl; auto; lia.
  - unfold create_match.
    match goal with
    | |- context [if ?c then _ else _] => destruct c eqn:E
    end; simpl; [|apply effect_refl].
    simpl in E. apply andb_true_iff in E. destruct E as [E E2].
    apply andb_true_iff in E. destruct E as [_ E1].
    eapply eff_create; [reflexivity|..]; simpl; auto.
  - destruct (update_match_toss db mid t) as [[m'|] db'|e] eqn:E; simpl;
      [|apply toss_none_unchanged in E; subst; apply effect_refl
       |apply effect_refl].
    apply update_match_toss_inv in E.
    destruct E as (stored & Hg & _ & Hnil & Hm' & Hdb).
    apply (eff_toss db db' mid t stored m'); auto.
  - destruct (record_delivery db mid d) as [[dl|] db'|e] eqn:E; simpl;
      [|apply score_none_unchanged in E; subst; apply effect_refl
       |apply effect_refl].
    destruct (scored_full db mid d dl db' Hc E)
      as (inning & match_ & a & b & S & Hdb).
    apply (eff_score db db' mid d inning match_ a b); auto.
Qed.

(** ** The tables stay coherent *)

Lemma in_update_match_strict r l x :
  In x (update_match r l) ->
  x = r \/ (In x l /\ Match.id x <> Match.id r).
Proof.
  unfold update_match. intros H. apply in_map_iff in H.
  destruct H as [y [Hy Hin]].
  destruct (Match.id y =? Match.id r) eqn:E.
  - left. congruence.
  - apply Z.eqb_neq in E. right. subst x. auto.
Qed.

Lemma update_match_ids r l :
  map Match.id (update_match r l) = map Match.id l.
Proof.
  induction l as [|a l IH]; simpl; [reflexivity|].
  rewrite IH. destruct (Match.id a =? Match.id r) eqn:E; [|reflexivity].
  apply Z.eqb_eq in E. congruence.
Qed.

Lemma update_inning_absent r l :
  (forall x, In x l -> Inning.id x <> Inning.id r) -> update_inning r l = l.
Proof.
  induction l as [|a l IH]; simpl; intros H; [reflexivity|].
  assert (E : (Inning.id a =? Inning.id r) = false).
  { apply Z.eqb_neq. apply H. auto. }
  rewrite E. f_equal. apply IH. intros x Hx. apply H. auto.
Qed.

Lemma sum_runs_app l l' : sum_runs (l ++ l') = sum_runs l + sum_runs l'.
Proof.
  induction l as [|a l IH]; simpl; [reflexivity|].
  unfold sum_runs in *. simpl. rewrite IH. lia.
Qed.

Lemma StronglySorted_snoc (l : list Z) (x : Z) :
  StronglySorted Z.lt l -> (forall y, In y l -> y < x) ->
  StronglySorted Z.lt (l ++ [x]).
Proof.
  induction l as [|a l IH]; simpl; intros Hs Hlt.
  - constructor; constructor.
  - inversion Hs as [|? ? Hs' Hall]; subst. constructor.
    + apply IH; auto.
    + apply Forall_app. split; [exact Hall|].
      constructor; [apply Hlt; auto|constructor].
Qed.

Lemma get_match_found db x :
  get_match_by_id db x <> None ->
  exists m, In m (matches db) /\ Match.id m = x.
Proof.
  unfold get_match_by_id. intros H.
  destruct (find _ (matches db)) as [m|] eqn:E; [|congruence].
  apply find_match_id in E. exists m. tauto.
Qed.

(** No inning belongs to a match whose id the sequence has not issued. *)
Lemma match_innings_fresh db x :
  consistent db -> coherent db -> match_seq db <= x ->
  match_innings (innings db) x = [].
Proof.
  intros Hc Hh Hx. apply filter_none. intros i Hi. apply Z.eqb_neq.
  destruct (get_match_found db _ (c_match db Hc i Hi)) as (m & Hm & E).
  pose proof (h_match_seq db Hh m Hm). lia.
Qed.

Lemma coherent_empty : coherent empty_db.
Proof.
  split; simpl; try contradiction; intros; try contradiction; constructor.
Qed.

Lemma coherent_frame db db' :
  coherent db ->
  matches db' = matches db -> innings db' = innings db ->
  deliveries db' = deliveries db ->
  match_seq db <= match_seq db' -> delivery_seq db <= delivery_seq db' ->
  (forall x, mem x (teams db) = true -> mem x (teams db') = true) ->
  coherent db'.
Proof.
  intros Hh Hm Hi Hd Hs1 Hs3 Ht. destruct Hh.
  split; unfold get_inning, log_runs, log_wickets, deliveries_of in *;
    rewrite ?Hm, ?Hi, ?Hd; auto.
  - intros m Hin. specialize (h_match_seq0 m Hin). lia.
  - intros m Hin. destruct (h_match_teams0 m Hin). split; apply Ht; auto.
  - intros d Hin. specialize (h_delivery_seq0 d Hin). lia.
Qed.

Lemma coherent_create db db' m :
  consistent db -> coherent db ->
  db' = mkDB (teams db) (players db) (tournaments db) (matches db ++ [m])
          (innings db) (deliveries db)
          (match_seq db + 1) (inning_seq db) (delivery_seq db) ->
  Match.id m = match_seq db -> Match.status m = SCHEDULED ->
  Match.toss_winner_id m = None -> Match.toss_decision m = None ->
  mem (Match.team1_id m) (teams db) = true ->
  mem (Match.team2_id m) (teams db) = true ->
  coherent db'.
Proof.
  intros Hc Hh -> Hid Hst Htw Htd Ht1 Ht2.
  pose proof (match_innings_fresh db (Match.id m) Hc Hh) as Hnone.
  rewrite Hid in Hnone. specialize (Hnone (Z.le_refl _)).
  destruct Hh.
  split; unfold get_inning, log_runs, log_wickets, deliveries_of in *;
    simpl; auto.
  - rewrite map_app. apply NoDup_app; auto.
    + simpl. constructor; [tauto|constructor].
    + intros x Hx [E|[]]. apply in_map_iff in Hx.
      destruct Hx as (y & Hy & Hin). specialize (h_match_seq0 y Hin). lia.
  - intros x Hx. apply in_app_or in Hx. destruct Hx as [Hx|[<-|[]]].
    + specialize (h_match_seq0 x Hx). lia.
    + lia.
  - intros x Hx. apply in_app_or in Hx. destruct Hx as [Hx|[<-|[]]]; auto.
  - intros x Hx. apply in_app_or in Hx. destruct Hx as [Hx|[<-|[]]]; auto.
    rewrite Hid, Hnone, Hst. split; [discriminate|].
    split; [intros _ i []|reflexivity].
  - intros x Hx. apply in_app_or in Hx. destruct Hx as [Hx|[<-|[]]]; auto.
    rewrite Hid, Hnone. split; [auto|discriminate].
  - intros x a b Hx. apply in_app_or in Hx. destruct Hx as [Hx|[<-|[]]]; auto.
    rewrite Hst. discriminate.
Qed.

Lemma find_app_some {A : Type} (f : A -> bool) (l l' : list A) :
  find f l <> None -> find f (l ++ l') <> None.
Proof.
  induction l as [|a l IH]; simpl; [congruence|].
  destruct (f a); [congruence|exact IH].
Qed.

Lemma coherent_toss db db' mid t stored m' :
  consistent db -> coherent db ->
  get_match_by_id db mid = Some stored ->
  match_innings (innings db) mid = [] ->
  m' = Match.set_toss (Some (TossData.toss_winner_id t))
         (Some (TossData.decision t)) stored ->
  db' = mkDB (teams db) (players db) (tournaments db)
          (update_match m' (matches db))
          (innings db ++
           [Inning.mk (inning_seq db) mid
              (first_batting_team_id m' t) (first_bowling_team_id m' t)
              0 0 0 0 false;
            Inning.mk (inning_seq db + 1) mid
              (first_bowling_team_id m' t) (first_batting_team_id m' t)
              0 0 0 0 false])
          (deliveries db)
          (match_seq db) (inning_seq db + 2) (delivery_seq db) ->
  coherent db'.
Proof.
  intros Hc Hh Hg Hnil Hm' ->.
  pose proof Hg as Hfound. unfold get_match_by_id in Hfound.
  apply find_match_id in Hfound. destruct Hfound as [Hid Hin].
  assert (Hid' : Match.id m' = mid) by (subst m'; exact Hid).
  assert (Hfresh : forall x, inning_seq db <= x ->
            filter (fun d => Delivery.inning_id d =? x) (deliveries db) = []).
  { intros x Hx. apply (deliveries_of_fresh db x Hc Hx). }
  assert (Hsched : Match.status stored = SCHEDULED).
  { apply (h_status db Hh stored Hin). rewrite Hid, Hnil. intros i []. }
  assert (Hother : forall x, x <> mid ->
            match_innings
              (innings db ++
               [Inning.mk (inning_seq db) mid
                  (first_batting_team_id m' t) (first_bowling_team_id m' t)
                  0 0 0 0 false;
                Inning.mk (inning_seq db + 1) mid
                  (first_bowling_team_id m' t) (first_batting_team_id m' t)
                  0 0 0 0 false]) x
            = match_innings (innings db) x).
  { intros x Hx. rewrite match_innings_app. simpl.
    assert (E : (mid =? x) = false) by (apply Z.eqb_neq; congruence).
    rewrite E. apply app_nil_r. }
  assert (Hmine :
            match_innings
              (innings db ++
               [Inning.mk (inning_seq db) mid
                  (first_batting_team_id m' t) (first_bowling_team_id m' t)
                  0 0 0 0 false;
                Inning.mk (inning_seq db + 1) mid
                  (first_bowling_team_id m' t) (first_batting_team_id m' t)
                  0 0 0 0 false]) mid
            = [Inning.mk (inning_seq db) mid
                 (first_batting_team_id m' t) (first_bowling_team_id m' t)
                 0 0 0 0 false;
               Inning.mk (inning_seq db + 1) mid
                 (first_bowling_team_id m' t) (first_batting_team_id m' t)
                 0 0 0 0 false]).
  { rewrite match_innings_app, Hnil. simpl. rewrite Z.eqb_refl. reflexivity. }
  split; unfold get_inning, log_runs, log_wickets, deliveries_of; simpl.
  - rewrite update_match_ids. apply (h_match_keys db Hh).
  - intros x Hx. apply in_update_match_strict in Hx.
    destruct Hx as [->|[Hx _]].
    + rewrite Hid', <- Hid. apply (h_match_seq db Hh stored Hin).
    + apply (h_match_seq db Hh x Hx).
  - intros x Hx. apply in_update_match_strict in Hx.
    destruct Hx as [->|[Hx _]].
    + subst m'. simpl. apply (h_match_teams db Hh stored Hin).
    + apply (h_match_teams db Hh x Hx).
  - apply (h_delivery_keys db Hh).
  - apply (h_delivery_seq db Hh).
  - intros d Hd. apply find_app_some. apply (h_delivery_inning db Hh d Hd).
  - intros i Hi. apply in_app_or in Hi. destruct Hi as [Hi|Hi].
    + apply (h_log db Hh i Hi).
    + simpl in Hi. destruct Hi as [<-|[<-|[]]]; simpl;
        rewrite Hfresh by lia; split; reflexivity.
  - intros i Hi. apply in_app_or in Hi. destruct Hi as [Hi|Hi].
    + apply (h_last_over db Hh i Hi).
    + simpl in Hi. destruct Hi as [<-|[<-|[]]]; simpl; lia.
  - intros x Hx. apply in_update_match_strict in Hx.
    destruct Hx as [->|[Hx Hne]].
    + rewrite Hid', Hmine.
      assert (Hst : Match.status m' = SCHEDULED) by (subst m'; exact Hsched).
      rewrite Hst. split; [discriminate|]. split; [|reflexivity].
      intros _ i Hi. simpl in Hi.
      destruct Hi as [<-|[<-|[]]]; simpl; apply Hfresh; lia.
    + rewrite Hid' in Hne. rewrite (Hother _ Hne).
      apply (h_status db Hh x Hx).
  - intros x Hx. apply in_update_match_strict in Hx.
    destruct Hx as [->|[Hx Hne]].
    + rewrite Hid', Hmine. split; [discriminate|].
      intros a b Hab. inversion Hab; subst a b; clear Hab.
      exists (TossData.toss_winner_id t), (TossData.decision t).
      assert (Et : TossData.mk (TossData.toss_winner_id t)
                     (TossData.decision t) = t) by (destruct t; reflexivity).
      rewrite Et. subst m'. simpl. auto.
    + rewrite Hid' in Hne. rewrite (Hother _ Hne).
      apply (h_toss db Hh x Hx).
  - intros x a b Hx. apply in_update_match_strict in Hx.
    destruct Hx as [->|[Hx Hne]].
    + intros _ Hst. subst m'. simpl in Hst. congruence.
    + rewrite Hid' in Hne. rewrite (Hother _ Hne).
      apply (h_result db Hh x a b Hx).
Qed.

Lemma get_inning_update_some r l x :
  find (fun i => Inning.id i =? x) l <> None ->
  find (fun i => Inning.id i =? x) (update_inning r l) <> None.
Proof.
  rewrite find_update_inning.
  destruct (x =? Inning.id r); destruct (find _ l); congruence.
Qed.

Lemma mark_live_status m :
  Match.status (mark_live m) <> SCHEDULED
  /\ (Match.status m <> ABANDONED -> Match.status (mark_live m) <> ABANDONED)
  /\ (Match.status m <> COMPLETED -> Match.status (mark_live m) <> COMPLETED).
Proof.
  unfold mark_live. destruct (Match.status m) eqn:E; simpl; rewrite ?E;
    repeat split; congruence.
Qed.

(** The columns of the match that scoring never writes. *)
Lemma scored_match_fields first inning d match_ :
  Match.team1_id (scored_match first inning d match_) = Match.team1_id match_
  /\ Match.team2_id (scored_match first inning d match_)
     = Match.team2_id match_
  /\ Match.toss_winner_id (scored_match first inning d match_)
     = Match.toss_winner_id match_
  /\ Match.toss_decision (scored_match first inning d match_)
     = Match.toss_decision match_.
Proof.
  unfold scored_match. rewrite check_end_snd. unfold mark_live.
  repeat match goal with
         | |- context [if ?c then _ else _] => destruct c
         end; simpl; auto.
Qed.

Lemma scored_match_status first inning d match_ :
  Match.status (scored_match first inning d match_) = COMPLETED
  \/ Match.status (scored_match first inning d match_)
     = Match.status (mark_live match_).
Proof.
  unfold scored_match. rewrite check_end_snd.
  repeat match goal with
         | |- context [if ?c then _ else _] => destruct c
         end; simpl; auto.
Qed.

(** When step 6 completes a match that had no winner, it does so on the
    second inning and the result agrees with the two totals. *)
Lemma check_end_result first i m :
  Match.winner_id m = None -> Match.status m <> COMPLETED ->
  Match.status (snd (check_end first i m)) = COMPLETED ->
  Inning.id i <> Inning.id first
  /\ result_agrees (snd (check_end first i m)) first
       (fst (check_end first i m)).
Proof.
  intros Hw Hs. unfold result_agrees, natural_end.
  destruct (check_end_fields first i m)
    as (_ & _ & G3 & G4 & G5 & G6 & G7 & _ & G9).
  rewrite G3, G4, G5, G6, G7, G9. unfold inning_over.
  rewrite check_end_snd, Hw. cbn [truthy].
  destruct (Inning.id i =? Inning.id first) eqn:Ei; [congruence|].
  apply Z.eqb_neq in Ei. cbn [negb andb].
  destruct (Inning.total_runs first <? Inning.total_runs i) eqn:E1.
  - intros _. apply Z.ltb_lt in E1. split; [exact Ei|].
    rewrite orb_true_r. simpl. split; [apply orb_true_r|]. left. auto.
  - rewrite orb_false_r. apply Z.ltb_ge in E1.
    destruct ((10 <=? Inning.wickets i) || (20 <=? Inning.overs_bowled i))
      eqn:En; [|congruence].
    intros _. split; [exact Ei|].
    assert (Hn : 10 <= Inning.wickets i \/ 20 <= Inning.overs_bowled i).
    { apply orb_true_iff in En. destruct En as [En|En];
        apply Z.leb_le in En; auto. }
    split; [apply orb_true_r|].
    destruct (Inning.total_runs i <? Inning.total_runs first) eqn:E2.
    + apply Z.ltb_lt in E2. simpl. right. auto.
    + apply Z.ltb_ge in E2. simpl. rewrite Hw. split; [lia|exact Hn].
Qed.

Section ScoredTables.

Variables (db : DB) (mid : Z) (d : DeliveryCreate.t) (db' : DB).
Variables (inning : Inning.t) (match_ : Match.t) (a b : Inning.t).
Hypothesis Hc : consistent db.
Hypothesis S : scoring db mid d db' inning match_ a b.

Lemma scoring_same_key x :
  In x (innings db) ->
  Inning.id x = Inning.id (scored_inning a inning d match_) -> x = inning.
Proof.
  intros Hx E. written_fields a inning d match_.
  apply (keys_injective (innings db)); auto.
  - apply (c_keys db Hc).
  - apply (get_inning_in db _ _ (sc_inning _ _ _ _ _ _ _ _ S)).
  - congruence.
Qed.

Lemma scoring_inning_match : Inning.match_id inning = mid.
Proof.
  assert (H : In inning (match_innings (innings db) mid)).
  { rewrite (sc_pair _ _ _ _ _ _ _ _ S).
    destruct (sc_target _ _ _ _ _ _ _ _ S) as [E|E]; rewrite E; simpl; auto. }
  apply in_match_innings in H. tauto.
Qed.

(** The innings of the other matches are not touched. *)
Lemma scoring_other_match mid' :
  mid' <> mid ->
  match_innings (innings db') mid' = match_innings (innings db) mid'.
Proof.
  intros Hne. written_fields a inning d match_.
  rewrite (sc_innings' _ _ _ _ _ _ _ _ S).
  rewrite match_innings_update.
  - apply update_inning_absent. intros x Hx E.
    apply in_match_innings in Hx. destruct Hx as [Hx Hm].
    pose proof (scoring_same_key x Hx E). subst x.
    rewrite scoring_inning_match in Hm. congruence.
  - intros x Hx E. rewrite (scoring_same_key x Hx E). congruence.
Qed.

(** The log of the other innings is not touched. *)
Lemma scoring_other_log x :
  x <> Inning.id inning -> deliveries_of db' x = deliveries_of db x.
Proof.
  intros Hne. unfold deliveries_of.
  rewrite (sc_deliveries' _ _ _ _ _ _ _ _ S), filter_app. simpl.
  rewrite (sc_inning_id _ _ _ _ _ _ _ _ S) in Hne.
  assert (E : (DeliveryCreate.inning_id d =? x) = false)
    by (apply Z.eqb_neq; congruence).
  rewrite E. apply app_nil_r.
Qed.

Lemma scoring_own_log :
  deliveries_of db' (Inning.id inning)
  = deliveries_of db (Inning.id inning) ++ [delivery_row db d].
Proof.
  unfold deliveries_of.
  rewrite (sc_deliveries' _ _ _ _ _ _ _ _ S), filter_app. simpl.
  rewrite (sc_inning_id _ _ _ _ _ _ _ _ S), Z.eqb_refl. reflexivity.
Qed.

End ScoredTables.

Lemma coherent_score db db' mid d inning match_ a b :
  consistent db -> coherent db ->
  scoring db mid d db' inning match_ a b ->
  db' = mkDB (teams db) (players db) (tournaments db)
          (update_match (scored_match a inning d match_) (matches db))
          (update_inning (scored_inning a inning d match_) (innings db))
          (deliveries db ++ [delivery_row db d])
          (match_seq db) (inning_seq db) (delivery_seq db + 1) ->
  coherent db'.
Proof.
  intros Hc Hh S Hdb.
  pose proof (scoring_other_match _ _ _ _ _ _ _ _ Hc S) as Hother.
  pose proof (scoring_other_log _ _ _ _ _ _ _ _ S) as Hotherlog.
  pose proof (scoring_own_log _ _ _ _ _ _ _ _ S) as Hownlog.
  pose proof (scoring_same_key _ _ _ _ _ _ _ _ Hc S) as Hsame.
  pose proof (scoring_inning_match _ _ _ _ _ _ _ _ S) as Hmid.
  pose proof S as S'.
  destruct S' as [S1 S2 S3 S4 S5 S6 S7 S8 S9 S10 S11 S12 S13 S14 S15 S16 S17].
  written_fields a inning d match_.
  pose proof (scored_match_fields a inning d match_) as (M1 & M2 & M3 & M4).
  pose proof (scored_match_id a inning d match_) as M0.
  set (i2 := scored_inning a inning d match_) in *.
  set (m2 := scored_match a inning d match_) in *.
  pose proof (get_inning_in db _ _ S1) as Hin.
  pose proof S3 as Hfound. unfold get_match_by_id in Hfound.
  apply find_match_id in Hfound. destruct Hfound as [Hmatch Hmin].
  assert (Hm2 : Match.id m2 = mid) by congruence.
  assert (Hmatches : matches db' = update_match m2 (matches db))
    by (subst db'; reflexivity).
  assert (Hpair' : match_innings (innings db') mid
                   = [if Inning.id a =? Inning.id i2 then i2 else a;
                      if Inning.id b =? Inning.id i2 then i2 else b])
    by (rewrite S15; reflexivity).
  assert (Hi2in : In i2 (match_innings (innings db') mid)).
  { rewrite Hpair', F1.
    destruct S11 as [E|E]; rewrite <- E, Z.eqb_refl; simpl; auto. }
  assert (Hrow : deliveries_of db' (Inning.id i2) <> []).
  { rewrite F1, Hownlog. intros E. apply app_eq_nil in E.
    destruct E as [_ E]. discriminate. }
  destruct (mark_live_status match_) as (L1 & L2 & L3).
  split.
  - rewrite Hmatches, update_match_ids. apply (h_match_keys db Hh).
  - intros x Hx. rewrite Hmatches in Hx.
    assert (Hs : match_seq db' = match_seq db) by (subst db'; reflexivity).
    rewrite Hs. apply in_update_match_strict in Hx.
    destruct Hx as [->|[Hx _]].
    + rewrite M0. apply (h_match_seq db Hh match_ Hmin).
    + apply (h_match_seq db Hh x Hx).
  - intros x Hx. rewrite Hmatches in Hx.
    assert (Ht : teams db' = teams db) by (subst db'; reflexivity).
    rewrite Ht. apply in_update_match_strict in Hx.
    destruct Hx as [->|[Hx _]].
    + rewrite M1, M2. apply (h_match_teams db Hh match_ Hmin).
    + apply (h_match_teams db Hh x Hx).
  - rewrite S17, map_app. simpl. apply StronglySorted_snoc.
    + apply (h_delivery_keys db Hh).
    + intros y Hy. apply in_map_iff in Hy. destruct Hy as (x & <- & Hx).
      apply (h_delivery_seq db Hh x Hx).
  - intros x Hx. rewrite S17 in Hx.
    assert (Hs : delivery_seq db' = delivery_seq db + 1)
      by (subst db'; reflexivity).
    rewrite Hs. apply in_app_or in Hx. destruct Hx as [Hx|[<-|[]]].
    + pose proof (h_delivery_seq db Hh x Hx). lia.
    + simpl. lia.
  - intros x Hx. rewrite S17 in Hx. unfold get_inning. rewrite S16.
    apply get_inning_update_some. apply in_app_or in Hx.
    destruct Hx as [Hx|[<-|[]]].
    + apply (h_delivery_inning db Hh x Hx).
    + simpl. unfold get_inning in S1. congruence.
  - intros x Hx. rewrite S16 in Hx. apply in_update_inning in Hx.
    destruct Hx as [[-> _]|[Hx Hne]].
    + destruct (h_log db Hh inning Hin) as [Hr Hw].
      unfold log_runs, log_wickets in *. rewrite F1, Hownlog.
      rewrite sum_runs_app, filter_app, length_app. simpl.
      rewrite F5, F6, Hr, Hw. unfold sum_runs, delivery_runs. simpl.
      destruct (DeliveryCreate.is_wicket d); simpl; split; lia.
    + destruct (h_log db Hh x Hx) as [Hr Hw].
      unfold log_runs, log_wickets in *. rewrite Hotherlog by congruence.
      auto.
  - intros x Hx. rewrite S16 in Hx. apply in_update_inning in Hx.
    destruct Hx as [[-> _]|[Hx Hne]]; [|apply (h_last_over db Hh x Hx)].
    destruct S7 as (_ & K2 & _ & K4 & _ & K6 & _).
    assert (Ho19 : Inning.overs_bowled inning <= 19).
    { destruct (Z_le_gt_dec 20 (Inning.overs_bowled inning)) as [L|L];
        [|lia]. apply K6 in L. congruence. }
    rewrite F7, F8.
    destruct (DeliveryCreate.is_extra d); [lia|].
    destruct (Inning.balls_bowled inning + 1 =? 6); lia.
  - intros x Hx. rewrite Hmatches in Hx. apply in_update_match_strict in Hx.
    destruct Hx as [->|[Hx Hne]].
    + assert (Hst : Match.status m2 <> SCHEDULED
                    /\ Match.status m2 <> ABANDONED).
      { destruct (h_status db Hh match_ Hmin) as [Hab _].
        destruct (scored_match_status a inning d match_) as [E|E];
          fold m2 in E; rewrite E; split; auto; discriminate. }
      destruct Hst as [Hns Hna]. split; [exact Hna|]. split; [contradiction|].
      intros Hall. exfalso. apply Hrow. apply Hall. rewrite Hm2. exact Hi2in.
    + rewrite Hm2 in Hne. rewrite (Hother _ Hne).
      destruct (h_status db Hh x Hx) as [Hab Hiff]. split; [exact Hab|].
      assert (Hlog : forall i, In i (match_innings (innings db) (Match.id x))
                       -> deliveries_of db' (Inning.id i)
                          = deliveries_of db (Inning.id i)).
      { intros i Hi. apply Hotherlog. intros E.
        apply in_match_innings in Hi. destruct Hi as [Hi Hm].
        assert (i = inning).
        { apply (keys_injective (innings db)); auto. apply (c_keys db Hc). }
        subst i. congruence. }
      rewrite Hiff. split; intros Hall i Hi.
      * rewrite (Hlog i Hi). apply Hall. exact Hi.
      * rewrite <- (Hlog i Hi). apply Hall. exact Hi.
  - intros x Hx. rewrite Hmatches in Hx. apply in_update_match_strict in Hx.
    destruct Hx as [->|[Hx Hne]].
    + rewrite Hm2, Hpair'. split; [discriminate|].
      intros a' b' Hab. injection Hab as Ea Eb. subst a' b'.
      destruct (h_toss db Hh match_ Hmin) as [_ Hag].
      rewrite Hmatch in Hag.
      destruct (Hag a b S8) as (w & dec & T1 & T2 & T3 & T4).
      exists w, dec. rewrite M3, M4.
      unfold first_batting_team_id, first_bowling_team_id, toss_loser_id
        in *. rewrite M1, M2.
      assert (Eteams :
                Inning.batting_team_id
                  (if Inning.id a =? Inning.id i2 then i2 else a)
                = Inning.batting_team_id a
                /\ Inning.bowling_team_id
                     (if Inning.id a =? Inning.id i2 then i2 else a)
                   = Inning.bowling_team_id a).
      { destruct (Inning.id a =? Inning.id i2) eqn:E; [|auto].
        apply Z.eqb_eq in E.
        assert (a = inning).
        { apply Hsame; auto.
          apply (in_match_innings (innings db) mid). rewrite S8.
          simpl. auto. }
        subst a. auto. }
      destruct Eteams as [-> ->]. auto.
    + rewrite Hm2 in Hne. rewrite (Hother _ Hne).
      apply (h_toss db Hh x Hx).
  - intros x a' b' Hx. rewrite Hmatches in Hx.
    apply in_update_match_strict in Hx.
    destruct Hx as [->|[Hx Hne]].
    + rewrite Hm2, Hpair'. intros Hab Hst.
      injection Hab as Ea Eb.
      destruct (mark_live_facts match_) as (_ & Hw' & _).
      destruct (check_end_result a (update_inning_score inning d)
                  (mark_live match_)) as [Hnea Hres]; auto.
      { rewrite Hw'. exact S5. }
      assert (Hid1 : Inning.id (update_inning_score inning d)
                     = Inning.id inning).
      { rewrite update_inning_score_eq. reflexivity. }
      rewrite Hid1 in Hnea.
      assert (E1 : (Inning.id a =? Inning.id i2) = false).
      { apply Z.eqb_neq. rewrite F1. congruence. }
      assert (E2 : (Inning.id b =? Inning.id i2) = true).
      { apply Z.eqb_eq. rewrite F1.
        destruct S11 as [E|E]; congruence. }
      rewrite E1 in Ea. rewrite E2 in Eb. subst a' b'. exact Hres.
    + rewrite Hm2 in Hne. rewrite (Hother _ Hne).
      apply (h_result db Hh x a' b' Hx).
Qed.

Lemma coherent_run_op db o :
  consistent db -> coherent db -> coherent (run_op db o).
Proof.
  intros Hc Hh.
  destruct (run_op_effect db o Hc)
    as [Hm Hi Hd Hs1 Hs2 Hs3 Ht
       |m Hdb Hid Hst Htw Htd Hw Ht1 Ht2
       |mid t stored m' Hg Hnil Hm' Hdb
       |mid d inning match_ a b S Hdb].
  - apply (coherent_frame db); auto.
  - apply (coherent_create db _ m); auto.
  - apply (coherent_toss db _ mid t stored m'); auto.
  - apply (coherent_score db _ mid d inning match_ a b); auto.
Qed.

Lemma reachable_coherent db : reachable db -> coherent db.
Proof.
  revert db. apply reachable_induction.
  - apply coherent_empty.
  - intros db o Hr Hh. apply coherent_run_op; auto.
    apply reachable_consistent. exact Hr.
Qed.

(** * What every history keeps *)

(** X1. The scoreboard is the log: on every reachable database an inning's
    [total_runs] is the sum, over the deliveries recorded against it, of
    [runs_scored] plus one per extra, and its [wickets] is the number of
    those deliveries with [is_wicket]. *)
Theorem scoreboard_is_sum_of_log db i :
  reachable db -> In i (innings db) ->
  Inning.total_runs i = log_runs db (Inning.id i)
  /\ Inning.wickets i = log_wickets db (Inning.id i).
Proof.
  intros Hr Hi. apply (h_log db (reachable_coherent db Hr) i Hi).
Qed.

Lemma scoreboard_is_sum_of_log_witness :
  log_runs (run chased) 2 = 12 /\ log_wickets (run chased) 2 = 0.
Proof.
  destruct (scoreboard_is_sum_of_log (run chased)
              (Inning.mk 2 1 2 1 12 0 0 3 true)) as [Hr Hw].
  - exists chased. reflexivity.
  - vm_compute. right. left. reflexivity.
  - split; [symmetry; exact Hr|symmetry; exact Hw].
Defined.

(** X2. The twenty-over limit: on every reachable database an inning has at
    most 20 overs; at 20 overs no ball of a further over has been bowled and
    the inning is completed; so an inning never takes more than 120 legal
    deliveries, nor more than 10 deliveries with a wicket. *)
Theorem overs_at_most_twenty db i :
  reachable db -> In i (innings db) ->
  0 <= Inning.overs_bowled i <= 20
  /\ (Inning.overs_bowled i = 20 ->
      Inning.balls_bowled i = 0 /\ Inning.is_completed i = true)
  /\ legal_balls db (Inning.id i) <= 120
  /\ log_wickets db (Inning.id i) <= 10.
Proof.
  intros Hr Hi.
  pose proof (reachable_consistent db Hr) as Hc.
  pose proof (reachable_coherent db Hr) as Hh.
  destruct (c_inning db Hc i Hi) as (_ & Kb & Kw & Ko & _ & Kc & Kl).
  pose proof (h_last_over db Hh i Hi) as Hlast.
  destruct (h_log db Hh i Hi) as [_ Hw].
  split; [exact Ko|]. split.
  - intros E. split; [auto|]. apply Kc. lia.
  - split; [|lia].
    destruct (Z.eq_dec (Inning.overs_bowled i) 20) as [E|E].
    + specialize (Hlast E). lia.
    + lia.
Qed.

Lemma overs_at_most_twenty_witness :
  legal_balls (run twenty_overs) 1 <= 120
  /\ Inning.is_completed (Inning.mk 1 1 1 2 0 0 20 0 true) = true.
Proof.
  destruct (overs_at_most_twenty (run twenty_overs)
              (Inning.mk 1 1 1 2 0 0 20 0 true)) as (_ & H20 & Hl & _).
  - exists twenty_overs. reflexivity.
  - vm_compute. left. reflexivity.
  - split; [exact Hl|]. apply H20. reflexivity.
Defined.

(** X4. Delivery rows are keyed in the order they were recorded, with
    strictly increasing ids, and each refers to an inning that exists. *)
Theorem delivery_ids_increase db :
  reachable db ->
  StronglySorted Z.lt (map Delivery.id (deliveries db))
  /\ (forall d, In d (deliveries db) ->
        exists i, get_inning db (Delivery.inning_id d) = Some i
                  /\ Inning.id i = Delivery.inning_id d).
Proof.
  intros Hr. pose proof (reachable_coherent db Hr) as Hh.
  split; [apply (h_delivery_keys db Hh)|].
  intros d Hd. pose proof (h_delivery_inning db Hh d Hd) as Hg.
  destruct (get_inning db (Delivery.inning_id d)) as [i|] eqn:E;
    [|congruence].
  exists i. split; [reflexivity|].
  unfold get_inning in E. apply find_inning_id in E. tauto.
Qed.

Lemma delivery_ids_increase_witness :
  StronglySorted Z.lt (map Delivery.id (deliveries (run chased))).
Proof.
  destruct (delivery_ids_increase (run chased)) as [H _].
  - exists chased. reflexivity.
  - exact H.
Defined.

(** X6. The status follows the log: on every reachable database no match is
    Abandoned, and a match is Scheduled exactly when no delivery has been
    recorded against any of its innings. *)
Theorem status_follows_log db m :
  reachable db -> In m (matches db) ->
  Match.status m <> ABANDONED
  /\ (Match.status m = SCHEDULED <->
      forall i, In i (match_innings (innings db) (Match.id m)) ->
                deliveries_of db (Inning.id i) = []).
Proof.
  intros Hr Hm. apply (h_status db (reachable_coherent db Hr) m Hm).
Qed.

Lemma status_follows_log_witness :
  Match.status
    (Match.mk 1 0 None SCHEDULED (Some 1) 1 2 (Some 1) (Some BAT) None)
  <> ABANDONED
  /\ (Match.status
        (Match.mk 1 0 None SCHEDULED (Some 1) 1 2 (Some 1) (Some BAT) None)
      = SCHEDULED <->
      forall i,
        In i (match_innings (innings (run after_toss))
                (Match.id
                   (Match.mk 1 0 None SCHEDULED (Some 1) 1 2 (Some 1)
                      (Some BAT) None))) ->
        deliveries_of (run after_toss) (Inning.id i) = []).
Proof.
  apply (status_follows_log (run after_toss)
           (Match.mk 1 0 None SCHEDULED (Some 1) 1 2 (Some 1) (Some BAT)
              None)).
  - exists after_toss. reflexivity.
  - vm_compute. left. reflexivity.
Defined.

(** X7. The winner has more runs: on every reachable database a match with
    a winner is Completed, has its two innings, the second of them
    completed, and either the winner batted second and has strictly more
    runs, or the winner batted first, has strictly more runs and the second
    inning reached ten wickets or twenty overs. *)
Theorem winner_has_more_runs db m w :
  reachable db -> In m (matches db) ->
  Match.winner_id m = Some w ->
  Match.status m = COMPLETED
  /\ exists a b,
       match_innings (innings db) (Match.id m) = [a; b]
       /\ Inning.id a < Inning.id b
       /\ Inning.is_completed b = true
       /\ ((w = Inning.batting_team_id b
            /\ Inning.total_runs a < Inning.total_runs b)
           \/ (w = Inning.batting_team_id a
               /\ Inning.total_runs b < Inning.total_runs a
               /\ natural_end b)).
Proof.
  intros Hr Hm Hw.
  pose proof (reachable_consistent db Hr) as Hc.
  pose proof (reachable_coherent db Hr) as Hh.
  assert (Hst : Match.status m = COMPLETED).
  { apply (c_winner db Hc m Hm). congruence. }
  split; [exact Hst|].
  destruct (c_paired db Hc (Match.id m))
    as [Hnil|(a & b & Hab & Hlt & Ht1 & Ht2)].
  { exfalso. destruct (h_status db Hh m Hm) as [_ [_ Hsched]].
    rewrite Hnil in Hsched. rewrite Hsched in Hst; [discriminate|].
    intros i []. }
  exists a, b. split; [exact Hab|]. split; [exact Hlt|].
  destruct (h_result db Hh m a b Hm Hab Hst) as [Hcompl Hres].
  split; [exact Hcompl|]. rewrite Hw in Hres.
  destruct Hres as [Hres|Hres]; [left; exact Hres|right].
  rewrite Ht1. exact Hres.
Qed.

Lemma winner_has_more_runs_witness :
  exists a b,
    match_innings (innings (run chased)) 1 = [a; b]
    /\ Inning.id a < Inning.id b
    /\ Inning.is_completed b = true
    /\ ((2 = Inning.batting_team_id b
         /\ Inning.total_runs a < Inning.total_runs b)
        \/ (2 = Inning.batting_team_id a
            /\ Inning.total_runs b < Inning.total_runs a
            /\ natural_end b)).
Proof.
  apply (winner_has_more_runs (run chased)
           (Match.mk 1 0 None COMPLETED (Some 1) 1 2 (Some 1) (Some BAT)
              (Some 2)) 2).
  - exists chased. reflexivity.
  - vm_compute. left. reflexivity.
  - reflexivity.
Defined.

(** X8. A match that is Completed without a winner is a tie: on every
    reachable database its two innings have the same total and the second
    one is completed at ten wickets or twenty overs. *)
Theorem completed_without_winner_is_tie db m :
  reachable db -> In m (matches db) ->
  Match.status m = COMPLETED -> Match.winner_id m = None ->
  exists a b,
    match_innings (innings db) (Match.id m) = [a; b]
    /\ Inning.total_runs a = Inning.total_runs b
    /\ natural_end b
    /\ Inning.is_completed b = true.
Proof.
  intros Hr Hm Hst Hw.
  pose proof (reachable_consistent db Hr) as Hc.
  pose proof (reachable_coherent db Hr) as Hh.
  destruct (c_paired db Hc (Match.id m)) as [Hnil|(a & b & Hab & _)].
  { exfalso. destruct (h_status db Hh m Hm) as [_ [_ Hsched]].
    rewrite Hnil in Hsched. rewrite Hsched in Hst; [discriminate|].
    intros i []. }
  exists a, b. split; [exact Hab|].
  destruct (h_result db Hh m a b Hm Hab Hst) as [Hcompl Hres].
  rewrite Hw in Hres. tauto.
Qed.

Lemma completed_without_winner_is_tie_witness :
  exists a b,
    match_innings (innings (run tied)) 1 = [a; b]
    /\ Inning.total_runs a = Inning.total_runs b.
Proof.
  destruct (completed_without_winner_is_tie (run tied)
              (Match.mk 1 0 None COMPLETED (Some 1) 1 2 (Some 1) (Some BAT)
                 None)) as (a & b & Hab & Ht & _).
  - exists tied. reflexivity.
  - vm_compute. left. reflexivity.
  - reflexivity.
  - reflexivity.
  - exists a, b. split; [exact Hab|exact Ht].
Defined.

(** X9. The recorded toss agrees with the innings: on every reachable
    database a match without innings has no toss recorded, is Scheduled and
    has no winner; a match with innings has the toss recorded, and the toss
    winner bats in the first-created inning when the decision is Bat and
    bowls in it when the decision is Field. *)
Theorem toss_agrees_with_innings db m :
  reachable db -> In m (matches db) ->
  (match_innings (innings db) (Match.id m) = [] ->
   Match.toss_winner_id m = None /\ Match.toss_decision m = None
   /\ Match.status m = SCHEDULED /\ Match.winner_id m = None)
  /\ (forall a b,
        match_innings (innings db) (Match.id m) = [a; b] ->
        exists w dec,
          Match.toss_winner_id m = Some w /\ Match.toss_decision m = Some dec
          /\ (dec = BAT ->
              Inning.batting_team_id a = w /\ Inning.bowling_team_id b = w)
          /\ (dec = FIELD ->
              Inning.bowling_team_id a = w /\ Inning.batting_team_id b = w)).
Proof.
  intros Hr Hm.
  pose proof (reachable_consistent db Hr) as Hc.
  pose proof (reachable_coherent db Hr) as Hh.
  destruct (h_toss db Hh m Hm) as [Hnone Hsome]. split.
  - intros Hnil. destruct (Hnone Hnil) as [T1 T2].
    assert (Hst : Match.status m = SCHEDULED).
    { apply (h_status db Hh m Hm). rewrite Hnil. intros i []. }
    repeat split; auto.
    apply (consistent_status_winner db m Hc Hm). congruence.
  - intros a b Hab.
    destruct (Hsome a b Hab) as (w & dec & T1 & T2 & T3 & T4).
    destruct (c_paired db Hc (Match.id m))
      as [Hnil|(a' & b' & Hab' & _ & P1 & P2)]; [congruence|].
    rewrite Hab in Hab'. injection Hab' as <- <-.
    exists w, dec. split; [exact T1|]. split; [exact T2|].
    unfold first_batting_team_id, first_bowling_team_id in T3, T4.
    simpl in T3, T4.
    split; intros ->; simpl in T3, T4; split; congruence.
Qed.

Lemma toss_agrees_with_innings_witness :
  exists w dec,
    Some 1 = Some w /\ Some BAT = Some dec
    /\ (dec = BAT ->
        Inning.batting_team_id (Inning.mk 1 1 1 2 0 0 0 0 false) = w
        /\ Inning.bowling_team_id (Inning.mk 2 1 2 1 0 0 0 0 false) = w)
    /\ (dec = FIELD ->
        Inning.bowling_team_id (Inning.mk 1 1 1 2 0 0 0 0 false) = w
        /\ Inning.batting_team_id (Inning.mk 2 1 2 1 0 0 0 0 false) = w).
Proof.
  destruct (toss_agrees_with_innings (run after_toss)
              (Match.mk 1 0 None SCHEDULED (Some 1) 1 2 (Some 1) (Some BAT)
                 None)) as [_ H].
  - exists after_toss. reflexivity.
  - vm_compute. left. reflexivity.
  - apply (H (Inning.mk 1 1 1 2 0 0 0 0 false)
             (Inning.mk 2 1 2 1 0 0 0 0 false)).
    vm_compute. reflexivity.
Defined.

(** X14. A match has no innings or exactly two, the second created after
    the first and with the two teams swapped; every inning belongs to a
    match that exists. *)
Theorem match_has_none_or_two_innings db mid :
  reachable db ->
  (match_innings (innings db) mid = []
   \/ exists i1 i2,
        match_innings (innings db) mid = [i1; i2]
        /\ Inning.id i1 < Inning.id i2
        /\ Inning.batting_team_id i1 = Inning.bowling_team_id i2
        /\ Inning.bowling_team_id i1 = Inning.batting_team_id i2)
  /\ (forall i, In i (innings db) ->
        exists m, get_match_by_id db (Inning.match_id i) = Some m).
Proof.
  intros Hr. pose proof (reachable_consistent db Hr) as Hc.
  split; [apply (c_paired db Hc mid)|].
  intros i Hi. pose proof (c_match db Hc i Hi) as Hm.
  destruct (get_match_by_id db (Inning.match_id i)) as [m|]; [|congruence].
  exists m. reflexivity.
Qed.

Lemma match_has_none_or_two_innings_witness :
  match_innings (innings (run chased)) 1 = []
  \/ exists i1 i2,
       match_innings (innings (run chased)) 1 = [i1; i2]
       /\ Inning.id i1 < Inning.id i2
       /\ Inning.batting_team_id i1 = Inning.bowling_team_id i2
       /\ Inning.bowling_team_id i1 = Inning.batting_team_id i2.
Proof.
  destruct (match_has_none_or_two_innings (run chased) 1) as [H _].
  - exists chased. reflexivity.
  - exact H.
Defined.

(** ** Along a history *)

Lemma run_app ops more : run (ops ++ more) = fold_left run_op more (run ops).
Proof. unfold run. apply fold_left_app. Qed.

Lemma reachable_run ops : reachable (run ops).
Proof. exists ops. reflexivity. Qed.

Lemma reachable_step db o : reachable db -> reachable (run_op db o).
Proof.
  intros [ops <-]. exists (ops ++ [o]). rewrite run_app. reflexivity.
Qed.

Lemma run_op_deliveries db o :
  exists l, deliveries (run_op db o) = deliveries db ++ l
            /\ (List.length l <= 1)%nat.
Proof.
  assert (Hsame : exists l, deliveries db = deliveries db ++ l
                            /\ (List.length l <= 1)%nat).
  { exists []. rewrite app_nil_r. simpl. auto. }
  destruct o as [t p r|sm si sd|m tid|mid t|mid d]; simpl; auto.
  - unfold create_match.
    match goal with
    | |- context [if ?c then _ else _] => destruct c
    end; simpl; exact Hsame.
  - destruct (update_match_toss db mid t) as [[m'|] db'|e] eqn:E; simpl;
      [|apply toss_none_unchanged in E; subst; exact Hsame|exact Hsame].
    apply update_match_toss_inv in E.
    destruct E as (stored & _ & _ & _ & _ & ->). exact Hsame.
  - destruct (record_delivery db mid d) as [[dl|] db'|e] eqn:E; simpl;
      [|apply score_none_unchanged in E; subst; exact Hsame|exact Hsame].
    apply record_delivery_inv in E.
    destruct E as (inning & match_ & first & _ & _ & _ & _ & _ & _ & _ & ->).
    exists [dl]. simpl. auto.
Qed.

(** X3. The delivery log is append-only: whatever operations follow a
    history, the rows recorded so far stay at the head of the table,
    unchanged and in order, and each further operation adds at most one
    row. *)
Theorem log_is_append_only ops more :
  exists l,
    deliveries (run (ops ++ more)) = deliveries (run ops) ++ l
    /\ (List.length l <= List.length more)%nat.
Proof.
  rewrite run_app. generalize (run ops) as db.
  induction more as [|o more IH]; intros db; simpl.
  - exists []. rewrite app_nil_r. auto.
  - destruct (run_op_deliveries db o) as (l1 & E1 & L1).
    destruct (IH (run_op db o)) as (l2 & E2 & L2).
    exists (l1 ++ l2). rewrite E2, E1, app_assoc, length_app.
    split; [reflexivity|lia].
Qed.

Lemma log_is_append_only_witness :
  exists l,
    deliveries (run (first_all_out ++ [Score 1 (ball 2 4 false false)]))
    = deliveries (run first_all_out) ++ l
    /\ (List.length l <= 1)%nat.
Proof.
  apply (log_is_append_only first_all_out [Score 1 (ball 2 4 false false)]).
Defined.

Lemma advances_refl i : advances i i.
Proof. unfold advances. repeat split; auto; lia. Qed.

Lemma advances_trans i j k : advances i j -> advances j k -> advances i k.
Proof.
  unfold advances.
  intros (A1 & A2 & A3 & A4 & A5 & A6 & A7) (B1 & B2 & B3 & B4 & B5 & B6 & B7).
  repeat split; try congruence; try lia.
  intros Hc. specialize (A7 Hc). subst j. auto.
Qed.

Lemma update_inning_in r l y :
  In y l ->
  In (if Inning.id y =? Inning.id r then r else y) (update_inning r l).
Proof.
  intros H. unfold update_inning.
  apply (in_map (fun x => if Inning.id x =? Inning.id r then r else x)).
  exact H.
Qed.

Lemma inning_step db o i :
  consistent db -> In i (innings db) ->
  exists i', In i' (innings (run_op db o)) /\ advances i i'.
Proof.
  intros Hc Hi.
  destruct (run_op_effect db o Hc)
    as [Hm Hin Hd Hs1 Hs2 Hs3 Ht
       |m Hdb Hid Hst Htw Htd Hw Ht1 Ht2
       |mid t stored m' Hg Hnil Hm' Hdb
       |mid d inning match_ a b S Hdb].
  - exists i. rewrite Hin. split; [exact Hi|apply advances_refl].
  - exists i. rewrite Hdb. split; [exact Hi|apply advances_refl].
  - exists i. rewrite Hdb. simpl.
    split; [apply in_or_app; auto|apply advances_refl].
  - pose proof (scoring_same_key _ _ _ _ _ _ _ _ Hc S) as Hsame.
    written_fields a inning d match_.
    rewrite (sc_innings' _ _ _ _ _ _ _ _ S).
    pose proof (update_inning_in (scored_inning a inning d match_)
                  (innings db) i Hi) as Hin'.
    destruct (Inning.id i =? Inning.id (scored_inning a inning d match_))
      eqn:E.
    + apply Z.eqb_eq in E. pose proof (Hsame i Hi E). subst i.
      exists (scored_inning a inning d match_). split; [exact Hin'|].
      unfold advances. rewrite F1, F2, F3, F4, F6, F7.
      repeat split; auto.
      * destruct (DeliveryCreate.is_wicket d); lia.
      * destruct (DeliveryCreate.is_extra d); [lia|].
        destruct (Inning.balls_bowled inning + 1 =? 6); lia.
      * intros Hcompl. rewrite (sc_open _ _ _ _ _ _ _ _ S) in Hcompl.
        discriminate.
    + exists i. split; [exact Hin'|apply advances_refl].
Qed.

Lemma inning_steps db more i :
  reachable db -> In i (innings db) ->
  exists i', In i' (innings (fold_left run_op more db)) /\ advances i i'.
Proof.
  revert db i. induction more as [|o more IH]; intros db i Hr Hi; simpl.
  - exists i. split; [exact Hi|apply advances_refl].
  - destruct (inning_step db o i (reachable_consistent db Hr) Hi)
      as (j & Hj & Hij).
    destruct (IH (run_op db o) j (reachable_step db o Hr) Hj)
      as (k & Hk & Hjk).
    exists k. split; [exact Hk|]. apply (advances_trans i j k); assumption.
Qed.

(** X13. Innings are never deleted, moved or reopened: whatever operations
    follow a history, each of its innings is still found under its id, in
    the same match and between the same teams, with no fewer wickets and
    overs; an inning that was completed is found exactly as it was. *)
Theorem innings_only_advance ops more i :
  In i (innings (run ops)) ->
  exists i',
    get_inning (run (ops ++ more)) (Inning.id i) = Some i' /\ advances i i'.
Proof.
  intros Hi. rewrite run_app.
  destruct (inning_steps (run ops) more i (reachable_run ops) Hi)
    as (i' & Hi' & Hadv).
  exists i'. split; [|exact Hadv].
  assert (Hr : reachable (fold_left run_op more (run ops))).
  { rewrite <- run_app. apply reachable_run. }
  destruct Hadv as (E & _). rewrite <- E.
  apply get_inning_of_in; [apply reachable_consistent; exact Hr|exact Hi'].
Qed.

Lemma innings_only_advance_witness :
  exists i',
    get_inning
      (run (first_all_out ++ repeat (Score 1 (ball 2 4 false false)) 3)) 1
    = Some i'
    /\ advances (Inning.mk 1 1 1 2 10 10 1 4 true) i'.
Proof.
  apply (innings_only_advance first_all_out
           (repeat (Score 1 (ball 2 4 false false)) 3)
           (Inning.mk 1 1 1 2 10 10 1 4 true)).
  vm_compute. left. reflexivity.
Defined.

Lemma find_app_found {A : Type} (f : A -> bool) (l l' : list A) (x : A) :
  find f l = Some x -> find f (l ++ l') = Some x.
Proof.
  induction l as [|a l IH]; simpl; [discriminate|].
  destruct (f a); [auto|exact IH].
Qed.

Lemma completed_has_innings db m :
  coherent db -> In m (matches db) -> Match.status m = COMPLETED ->
  match_innings (innings db) (Match.id m) <> [].
Proof.
  intros Hh Hm Hst Hnil.
  destruct (h_status db Hh m Hm) as [_ [_ Hsched]].
  rewrite Hnil in Hsched. rewrite Hsched in Hst; [discriminate|].
  intros i [].
Qed.

Lemma completed_step db o mid m :
  reachable db ->
  get_match_by_id db mid = Some m -> Match.status m = COMPLETED ->
  get_match_by_id (run_op db o) mid = Some m
  /\ match_innings (innings (run_op db o)) mid
     = match_innings (innings db) mid.
Proof.
  intros Hr Hg Hst.
  pose proof (reachable_consistent db Hr) as Hc.
  pose proof (reachable_coherent db Hr) as Hh.
  pose proof Hg as Hfound. unfold get_match_by_id in Hfound.
  apply find_match_id in Hfound. destruct Hfound as [Hid Hin].
  destruct (run_op_effect db o Hc)
    as [Hm Hi Hd Hs1 Hs2 Hs3 Ht
       |m0 Hdb Hid0 Hst0 Htw Htd Hw Ht1 Ht2
       |mid0 t stored m' Hg0 Hnil Hm' Hdb
       |mid0 d inning match_ a b S Hdb].
  - unfold get_match_by_id. rewrite Hm, Hi. auto.
  - rewrite Hdb. unfold get_match_by_id. simpl. split; [|reflexivity].
    apply find_app_found. exact Hg.
  - destruct (Z.eq_dec mid0 mid) as [->|Hne].
    { exfalso. rewrite Hg in Hg0. injection Hg0 as <-.
      apply (completed_has_innings db m Hh Hin Hst). congruence. }
    pose proof Hg0 as Hf0. unfold get_match_by_id in Hf0.
    apply find_match_id in Hf0. destruct Hf0 as [Hid0 _].
    rewrite Hdb. unfold get_match_by_id. simpl. split.
    + rewrite find_update_match.
      assert (E : (mid =? Match.id m') = false).
      { apply Z.eqb_neq. subst m'. simpl. congruence. }
      rewrite E. exact Hg.
    + rewrite match_innings_app. simpl.
      assert (E : (mid0 =? mid) = false) by (apply Z.eqb_neq; exact Hne).
      rewrite E. apply app_nil_r.
  - destruct (Z.eq_dec mid0 mid) as [->|Hne].
    { exfalso. rewrite (sc_match _ _ _ _ _ _ _ _ S) in Hg.
      injection Hg as <-. apply (sc_live _ _ _ _ _ _ _ _ S). exact Hst. }
    split.
    + rewrite Hdb. unfold get_match_by_id. simpl.
      rewrite find_update_match, scored_match_id.
      pose proof (sc_match _ _ _ _ _ _ _ _ S) as Hf0.
      unfold get_match_by_id in Hf0. apply find_match_id in Hf0.
      destruct Hf0 as [Hid0 _].
      assert (E : (mid =? Match.id match_) = false).
      { apply Z.eqb_neq. congruence. }
      rewrite E. exact Hg.
    + apply (scoring_other_match _ _ _ _ _ _ _ _ Hc S). congruence.
Qed.

(** X5. Completed is final: once a match is Completed, no later operation
    changes its row (status, winner, toss) or the rows of its innings. *)
Theorem completed_match_is_final ops more mid m :
  get_match_by_id (run ops) mid = Some m ->
  Match.status m = COMPLETED ->
  get_match_by_id (run (ops ++ more)) mid = Some m
  /\ match_innings (innings (run (ops ++ more))) mid
     = match_innings (innings (run ops)) mid.
Proof.
  rewrite run_app. generalize (reachable_run ops). generalize (run ops) as db.
  induction more as [|o more IH]; intros db Hr Hg Hst; simpl; [auto|].
  destruct (completed_step db o mid m Hr Hg Hst) as [Hg' Hi'].
  destruct (IH (run_op db o) (reachable_step db o Hr) Hg' Hst) as [Hg2 Hi2].
  split; [exact Hg2|congruence].
Qed.

Lemma completed_match_is_final_witness :
  get_match_by_id
    (run (chased ++ [Score 1 (ball 1 6 false false);
                     Toss 1 (TossData.mk 2 FIELD)])) 1
  = Some (Match.mk 1 0 None COMPLETED (Some 1) 1 2 (Some 1) (Some BAT)
            (Some 2))
  /\ match_innings
       (innings (run (chased ++ [Score 1 (ball 1 6 false false);
                                 Toss 1 (TossData.mk 2 FIELD)]))) 1
     = match_innings (innings (run chased)) 1.
Proof.
  apply (completed_match_is_final chased
           [Score 1 (ball 1 6 false false); Toss 1 (TossData.mk 2 FIELD)] 1).
  - vm_compute. reflexivity.
  - reflexivity.
Defined.

(** X17. The toss happens once: from the moment a match has innings, every
    later call of [update_match_toss] for it returns [None] and changes
    nothing. *)
Theorem toss_only_once ops more mid t :
  match_innings (innings (run ops)) mid <> [] ->
  update_match_toss (run (ops ++ more)) mid t
  = Return None (run (ops ++ more)).
Proof.
  intros Hne.
  destruct (match_innings (innings (run ops)) mid) as [|i rest] eqn:E;
    [congruence|].
  assert (Hi : In i (match_innings (innings (run ops)) mid))
    by (rewrite E; simpl; auto).
  apply in_match_innings in Hi. destruct Hi as [Hi Hmid].
  destruct (inning_steps (run ops) more i (reachable_run ops) Hi)
    as (i' & Hi' & Hadv).
  rewrite run_app.
  set (db := fold_left run_op more (run ops)) in *.
  assert (Hr : reachable db).
  { unfold db. rewrite <- run_app. apply reachable_run. }
  pose proof (reachable_consistent db Hr) as Hc.
  destruct Hadv as (_ & Hm' & _).
  pose proof (c_match db Hc i' Hi') as Hg. rewrite Hm', Hmid in Hg.
  unfold update_match_toss.
  destruct (get_match_by_id db mid) as [stored|] eqn:Eg; [|congruence].
  unfold get_match_by_id in Eg. apply find_match_id in Eg.
  destruct Eg as [Eid _]. rewrite Eid.
  assert (Hin : In i' (match_innings (innings db) mid)).
  { apply in_match_innings. split; [exact Hi'|congruence]. }
  destruct (match_innings (innings db) mid); [contradiction|reflexivity].
Qed.

Lemma toss_only_once_witness :
  update_match_toss (run (after_toss ++ [Score 1 (ball 1 1 false false)])) 1
    (TossData.mk 2 FIELD)
  = Return None (run (after_toss ++ [Score 1 (ball 1 1 false false)])).
Proof.
  apply (toss_only_once after_toss [Score 1 (ball 1 1 false false)] 1
           (TossData.mk 2 FIELD)).
  vm_compute. discriminate.
Defined.

(** ** Outcomes of the calls *)



Lemma record_delivery_inv_match db mid d dl db' :
  record_delivery db mid d = Return (Some dl) db' ->
  exists m,
    get_match_by_id db' mid = Some m /\ Match.id m = mid
    /\ Match.status m <> SCHEDULED.
Proof.
  intros H. apply record_delivery_inv in H.
  destruct H as (inning & match_ & first & _ & _ & Hgm & _ & _ & _ & _ & ->).
  exists (scored_match first inning d match_).
  pose proof Hgm as Hf. unfold get_match_by_id in Hf.
  apply find_match_id in Hf. destruct Hf as [Hid _].
  pose proof (scored_match_id first inning d match_) as Hid2.
  split; [|split].
  - unfold get_match_by_id in *. simpl.
    rewrite find_update_match, Hid2, Hid, Z.eqb_refl, Hgm. reflexivity.
  - congruence.
  - destruct (mark_live_status match_) as (L1 & _).
    destruct (scored_match_status first inning d match_) as [E|E];
      rewrite E; [discriminate|exact L1].
Qed.

(** X11. The scoring endpoint answers with the match as it stands after the
    delivery, never with null and never still Scheduled; it answers 400
    exactly when [crud.record_delivery] returned [None], and then nothing
    has changed. *)
Theorem score_response db mid d :
  (forall r db',
     Main.record_delivery db mid d = Return r db' ->
     exists dl m,
       record_delivery db mid d = Return (Some dl) db'
       /\ r = Some m /\ read_match db' mid = Return m db'
       /\ Match.status m <> SCHEDULED)
  /\ (Main.record_delivery db mid d = Raise (HTTPException 400) <->
      record_delivery db mid d = Return None db).
Proof.
  unfold Main.record_delivery. split.
  - intros r db' H.
    destruct (record_delivery db mid d) as [[dl|] db1|e] eqn:E;
      try discriminate.
    injection H as <- <-.
    destruct (record_delivery_inv_match db mid d dl db1 E)
      as (m & Hg & _ & Hst).
    exists dl, m. unfold read_match. rewrite Hg. auto.
  - destruct (record_delivery db mid d) as [[dl|] db1|e] eqn:E.
    + split; discriminate.
    + apply score_none_unchanged in E. subst db1. split; reflexivity.
    + split; [|discriminate]. intros H. injection H as ->. exfalso.
      unfold record_delivery in E.
      repeat match type of E with
             | match ?c with _ => _ end = _ => destruct c
             | (let '(_, _) := ?c in _) = _ => destruct c
             end; discriminate.
Qed.

Lemma score_response_witness :
  exists dl m,
    record_delivery (run after_toss) 1 (ball 1 4 false false)
    = Return (Some dl)
        (db_after (run after_toss)
           (record_delivery (run after_toss) 1 (ball 1 4 false false)))
    /\ Some (Match.mk 1 0 None LIVE (Some 1) 1 2 (Some 1) (Some BAT) None)
       = Some m
    /\ read_match
         (db_after (run after_toss)
            (record_delivery (run after_toss) 1 (ball 1 4 false false))) 1
       = Return m
           (db_after (run after_toss)
              (record_delivery (run after_toss) 1 (ball 1 4 false false)))
    /\ Match.status m <> SCHEDULED.
Proof.
  destruct (score_response (run after_toss) 1 (ball 1 4 false false))
    as [H _].
  apply H. vm_compute. reflexivity.
Defined.

Lemma get_match_fresh db x :
  coherent db -> match_seq db <= x -> get_match_by_id db x = None.
Proof.
  intros Hh Hx. unfold get_match_by_id.
  destruct (find _ (matches db)) as [m|] eqn:E; [|reflexivity].
  apply find_match_id in E. destruct E as [Eid Hin].
  pose proof (h_match_seq db Hh m Hin). lia.
Qed.

Lemma find_app_split {A : Type} (f : A -> bool) (l l' : list A) :
  find f (l ++ l') =
  match find f l with
  | Some y => Some y
  | None => find f l'
  end.
Proof.
  induction l as [|a l IH]; simpl; [reflexivity|].
  destruct (f a); [reflexivity|exact IH].
Qed.

(** X12. A match created through the endpoint is between two different
    teams, gets an id that no match had, starts Scheduled with no toss, no
    winner and no innings, and is what [read_match] returns for that id;
    every other id reads as before. *)
Theorem created_match_is_found db tid mc m db' :
  reachable db ->
  create_match_in_tournament db tid mc = Return m db' ->
  Match.team1_id m <> Match.team2_id m
  /\ Match.status m = SCHEDULED
  /\ Match.toss_winner_id m = None /\ Match.winner_id m = None
  /\ get_match_by_id db (Match.id m) = None
  /\ read_match db' (Match.id m) = Return m db'
  /\ (forall x, x <> Match.id m ->
        get_match_by_id db' x = get_match_by_id db x)
  /\ match_innings (innings db') (Match.id m) = [].
Proof.
  intros Hr H.
  pose proof (reachable_consistent db Hr) as Hc.
  pose proof (reachable_coherent db Hr) as Hh.
  unfold create_match_in_tournament in H.
  destruct (MatchCreate.team1_id mc =? MatchCreate.team2_id mc) eqn:Et;
    [discriminate|].
  apply Z.eqb_neq in Et. unfold create_match in H. committed H.
  injection H as <- <-. simpl.
  pose proof (get_match_fresh db (match_seq db) Hh (Z.le_refl _)) as Hnone.
  repeat split; auto.
  - unfold read_match, get_match_by_id in *. simpl.
    rewrite find_app_split, Hnone. simpl. rewrite Z.eqb_refl. reflexivity.
  - intros x Hx. unfold get_match_by_id. simpl. rewrite find_app_split.
    destruct (find (fun m => Match.id m =? x) (matches db)); [reflexivity|].
    simpl. assert (E : (match_seq db =? x) = false)
      by (apply Z.eqb_neq; congruence).
    rewrite E. reflexivity.
  - apply (match_innings_fresh db (match_seq db) Hc Hh). lia.
Qed.

Lemma created_match_is_found_witness :
  read_match
    (db_after (run after_toss)
       (create_match_in_tournament (run after_toss) 1
          (MatchCreate.mk 5 None 2 3))) 2
  = Return (Match.mk 2 5 None SCHEDULED (Some 1) 2 3 None None None)
      (db_after (run after_toss)
         (create_match_in_tournament (run after_toss) 1
            (MatchCreate.mk 5 None 2 3))).
Proof.
  destruct (created_match_is_found (run after_toss) 1
              (MatchCreate.mk 5 None 2 3)
              (Match.mk 2 5 None SCHEDULED (Some 1) 2 3 None None None)
              (db_after (run after_toss)
                 (create_match_in_tournament (run after_toss) 1
                    (MatchCreate.mk 5 None 2 3))))
    as (_ & _ & _ & _ & _ & H & _).
  - exists after_toss. reflexivity.
  - vm_compute. reflexivity.
  - exact H.
Defined.

(** X16. What the toss endpoint can answer on a reachable database: 404 for
    a match that does not exist, 400 for a winner that is not one of the two
    teams, [None] with nothing changed when the match has innings, and
    otherwise the match with the toss recorded.  The commit cannot fail. *)
Theorem record_toss_outcome db mid t :
  reachable db ->
  match get_match_by_id db mid with
  | None => Main.record_toss db mid t = Raise (HTTPException 404)
  | Some m =>
      if mem (TossData.toss_winner_id t)
           [Match.team1_id m; Match.team2_id m]
      then
        match match_innings (innings db) mid with
        | [] =>
            exists db',
              Main.record_toss db mid t
              = Return
                  (Some (Match.set_toss (Some (TossData.toss_winner_id t))
                           (Some (TossData.decision t)) m))
                  db'
        | _ :: _ => Main.record_toss db mid t = Return None db
        end
      else Main.record_toss db mid t = Raise (HTTPException 400)
  end.
Proof.
  intros Hr.
  pose proof (reachable_coherent db Hr) as Hh.
  unfold Main.record_toss.
  destruct (get_match_by_id db mid) as [m|] eqn:Eg; [|reflexivity].
  pose proof Eg as Hf. unfold get_match_by_id in Hf.
  apply find_match_id in Hf. destruct Hf as [Hid Hin].
  destruct (mem (TossData.toss_winner_id t)
              [Match.team1_id m; Match.team2_id m]) eqn:Ew;
    [|reflexivity].
  simpl. unfold update_match_toss. rewrite Eg, Hid.
  destruct (match_innings (innings db) mid) as [|i rest] eqn:Ei;
    [|reflexivity].
  destruct (h_match_teams db Hh m Hin) as [T1 T2].
  destruct (h_toss db Hh m Hin) as [Hnone _].
  rewrite Hid in Hnone. destruct (Hnone Ei) as [Htw _].
  assert (Hw : mem (TossData.toss_winner_id t) (teams db) = true).
  { unfold mem in Ew. simpl in Ew. rewrite orb_false_r in Ew.
    apply orb_true_iff in Ew. destruct Ew as [E|E];
      apply Z.eqb_eq in E; rewrite E; assumption. }
  unfold first_batting_team_id, first_bowling_team_id, toss_loser_id,
    fk_written, fk_opt.
  cbn [Match.set_toss Match.team1_id Match.team2_id Match.toss_winner_id
       Inning.batting_team_id Inning.bowling_team_id].
  rewrite Htw. cbn [option_Z_eqb orb].
  destruct (TossData.toss_winner_id t =? Match.team1_id m);
    destruct (TossDecision_eqb (TossData.decision t) BAT);
    rewrite ?Hw, ?T1, ?T2; cbn [andb]; eexists; reflexivity.
Qed.

Lemma record_toss_outcome_witness :
  exists db',
    Main.record_toss (run match_created) 1 (TossData.mk 2 FIELD)
    = Return
        (Some (Match.set_toss (Some 2) (Some FIELD)
                 (Match.mk 1 0 None SCHEDULED (Some 1) 1 2 None None None)))
        db'.
Proof.
  apply (record_toss_outcome (run match_created) 1 (TossData.mk 2 FIELD)).
  exists match_created. reflexivity.
Defined.

(** ** Through the endpoints *)

Lemma serve_step db r :
  serve db r = db
  \/ exists o,
       serve db r = run_op db o
       /\ (forall mc tid, o = CreateMatch mc tid ->
             MatchCreate.team1_id mc <> MatchCreate.team2_id mc)
       /\ (forall mid t, o = Toss mid t ->
             exists stored,
               get_match_by_id db mid = Some stored
               /\ (TossData.toss_winner_id t = Match.team1_id stored
                   \/ TossData.toss_winner_id t = Match.team2_id stored)).
Proof.
  destruct r as [tm pl tr|sm si sd|tid mc|mid t|mid d]; simpl.
  - right. exists (AddRoster tm pl tr).
    split; [reflexivity|]. split; intros; discriminate.
  - right. exists (SkipIds sm si sd).
    split; [reflexivity|]. split; intros; discriminate.
  - unfold create_match_in_tournament.
    destruct (MatchCreate.team1_id mc =? MatchCreate.team2_id mc) eqn:E;
      [left; reflexivity|].
    apply Z.eqb_neq in E. right. exists (CreateMatch mc tid).
    split; [reflexivity|]. split; intros ? ? H; [|discriminate].
    injection H as <- <-. exact E.
  - unfold Main.record_toss.
    destruct (get_match_by_id db mid) as [stored|] eqn:Eg;
      [|left; reflexivity].
    destruct (mem (TossData.toss_winner_id t)
                [Match.team1_id stored; Match.team2_id stored]) eqn:Ew;
      [|left; reflexivity].
    right. exists (Toss mid t). split; [reflexivity|].
    split; intros ? ? H; [discriminate|].
    injection H as <- <-. exists stored. split; [exact Eg|].
    unfold mem in Ew. simpl in Ew. rewrite orb_false_r in Ew.
    apply orb_true_iff in Ew.
    destruct Ew as [E|E]; apply Z.eqb_eq in E; auto.
  - right. exists (Score mid d). split; [|split; intros; discriminate].
    unfold Main.record_delivery. simpl.
    destruct (record_delivery db mid d) as [[dl|] db1|e] eqn:E;
      simpl; try reflexivity.
    apply score_none_unchanged in E. congruence.
Qed.

Lemma sides_run_op db o :
  sides_ok db ->
  (forall mc tid, o = CreateMatch mc tid ->
     MatchCreate.team1_id mc <> MatchCreate.team2_id mc) ->
  (forall mid t, o = Toss mid t ->
     exists stored,
       get_match_by_id db mid = Some stored
       /\ (TossData.toss_winner_id t = Match.team1_id stored
           \/ TossData.toss_winner_id t = Match.team2_id stored)) ->
  sides_ok (run_op db o).
Proof.
  intros Hs Hcreate Htoss.
  destruct o as [tm pl tr|sm si sd|mc tid|mid t|mid d]; simpl.
  - exact Hs.
  - exact Hs.
  - unfold create_match.
    match goal with
    | |- context [if ?c then _ else _] => destruct c
    end; simpl; [|exact Hs].
    intros x Hx. simpl in Hx. apply in_app_or in Hx.
    destruct Hx as [Hx|[<-|[]]]; [apply Hs; exact Hx|]. simpl.
    split; [apply (Hcreate mc tid eq_refl)|discriminate].
  - destruct (update_match_toss db mid t) as [[m'|] db'|e] eqn:E; simpl;
      [|apply toss_none_unchanged in E; subst; exact Hs|exact Hs].
    apply update_match_toss_inv in E.
    destruct E as (stored & Hg & _ & _ & Hm' & ->).
    destruct (Htoss mid t eq_refl) as (stored' & Hg' & Hw).
    rewrite Hg in Hg'. injection Hg' as <-.
    unfold get_match_by_id in Hg. apply find_match_id in Hg.
    destruct Hg as [_ Hin].
    intros x Hx. simpl in Hx. apply in_update_match_strict in Hx.
    destruct Hx as [->|[Hx _]]; [|apply Hs; exact Hx].
    subst m'. simpl. split; [apply (Hs stored Hin)|].
    intros w E. injection E as <-. exact Hw.
  - destruct (record_delivery db mid d) as [[dl|] db'|e] eqn:E; simpl;
      [|apply score_none_unchanged in E; subst; exact Hs|exact Hs].
    apply record_delivery_inv in E.
    destruct E as (inning & match_ & first & _ & _ & Hg & _ & _ & _ & _ & ->).
    unfold get_match_by_id in Hg. apply find_match_id in Hg.
    destruct Hg as [_ Hin].
    intros x Hx. simpl in Hx. apply in_update_match_strict in Hx.
    destruct Hx as [->|[Hx _]]; [|apply Hs; exact Hx].
    destruct (scored_match_fields first inning d match_)
      as (M1 & M2 & M3 & _).
    rewrite M1, M2, M3. apply (Hs match_ Hin).
Qed.

Lemma served_ok rs : reachable (served rs) /\ sides_ok (served rs).
Proof.
  unfold served. induction rs as [|r rs IH] using rev_ind; simpl.
  - split; [exists []; reflexivity|intros m []].
  - rewrite fold_left_app. simpl. destruct IH as [Hr Hs].
    destruct (serve_step (fold_left serve rs empty_db) r)
      as [E|(o & E & G1 & G2)]; rewrite E.
    + auto.
    + split; [apply reachable_step; exact Hr|].
      apply sides_run_op; assumption.
Qed.

(** X10. Through the endpoints the sides of a match are sound: in every
    database made by endpoint calls a match is between two different teams,
    its toss winner is one of them, its two innings are batted one by each
    of them, and its winner is one of them. *)
Theorem endpoint_sides rs m :
  In m (matches (served rs)) ->
  Match.team1_id m <> Match.team2_id m
  /\ (forall w, Match.toss_winner_id m = Some w ->
        w = Match.team1_id m \/ w = Match.team2_id m)
  /\ (forall a b,
        match_innings (innings (served rs)) (Match.id m) = [a; b] ->
        ((Inning.batting_team_id a = Match.team1_id m
          /\ Inning.batting_team_id b = Match.team2_id m)
         \/ (Inning.batting_team_id a = Match.team2_id m
             /\ Inning.batting_team_id b = Match.team1_id m))
        /\ Inning.bowling_team_id a = Inning.batting_team_id b
        /\ Inning.bowling_team_id b = Inning.batting_team_id a)
  /\ (forall w, Match.winner_id m = Some w ->
        w = Match.team1_id m \/ w = Match.team2_id m).
Proof.
  intros Hm. destruct (served_ok rs) as [Hr Hs].
  set (db := served rs) in *.
  pose proof (reachable_consistent db Hr) as Hc.
  pose proof (reachable_coherent db Hr) as Hh.
  destruct (Hs m Hm) as [Hne Htw].
  assert (Hsides : forall a b,
            match_innings (innings db) (Match.id m) = [a; b] ->
            ((Inning.batting_team_id a = Match.team1_id m
              /\ Inning.batting_team_id b = Match.team2_id m)
             \/ (Inning.batting_team_id a = Match.team2_id m
                 /\ Inning.batting_team_id b = Match.team1_id m))
            /\ Inning.bowling_team_id a = Inning.batting_team_id b
            /\ Inning.bowling_team_id b = Inning.batting_team_id a).
  { intros a b Hab.
    destruct (c_paired db Hc (Match.id m))
      as [Hnil|(a' & b' & Hab' & _ & P1 & P2)]; [congruence|].
    rewrite Hab in Hab'. injection Hab' as <- <-.
    destruct (h_toss db Hh m Hm) as [_ Hag].
    destruct (Hag a b Hab) as (w & dec & T1 & T2 & T3 & T4).
    unfold first_batting_team_id, first_bowling_team_id, toss_loser_id
      in T3, T4. simpl in T3, T4.
    split; [|split; congruence].
    rewrite <- P2, T3, T4.
    destruct (Htw w T1) as [->| ->].
    - rewrite Z.eqb_refl. destruct dec; simpl; auto.
    - assert (E : (Match.team2_id m =? Match.team1_id m) = false)
        by (apply Z.eqb_neq; congruence).
      rewrite E. destruct dec; simpl; auto. }
  split; [exact Hne|]. split; [exact Htw|]. split; [exact Hsides|].
  intros w Hw.
  assert (Hst : Match.status m = COMPLETED).
  { apply (c_winner db Hc m Hm). congruence. }
  destruct (c_paired db Hc (Match.id m))
    as [Hnil|(a & b & Hab & _ & P1 & P2)].
  { exfalso. apply (completed_has_innings db m Hh Hm Hst Hnil). }
  destruct (h_result db Hh m a b Hm Hab Hst) as [_ Hres].
  rewrite Hw in Hres.
  destruct (Hsides a b Hab) as (Hbat & _ & Hbowl).
  destruct Hres as [[-> _]|[-> _]]; rewrite ?Hbowl; tauto.
Qed.

Lemma endpoint_sides_witness :
  Match.team1_id
    (Match.mk 1 0 None COMPLETED (Some 1) 1 2 (Some 1) (Some BAT) (Some 2))
  <> Match.team2_id
       (Match.mk 1 0 None COMPLETED (Some 1) 1 2 (Some 1) (Some BAT)
          (Some 2))
  /\ (2 = 1 \/ 2 = 2).
Proof.
  destruct (endpoint_sides
              ([Roster [1; 2; 3] [1; 2] [1];
                PostMatch 1 (MatchCreate.mk 0 None 1 2);
                PostToss 1 (TossData.mk 1 BAT)]
               ++ repeat (PostScore 1 (ball 1 1 true false)) 10
               ++ repeat (PostScore 1 (ball 2 4 false false)) 3)
              (Match.mk 1 0 None COMPLETED (Some 1) 1 2 (Some 1) (Some BAT)
                 (Some 2))) as [H1 [_ [_ H4]]].
  - vm_compute. left. reflexivity.
  - split; [exact H1 | apply H4; reflexivity].
Defined.

(** ** When a delivery completes an inning and the match *)

(** X18. A recorded delivery completes its inning exactly when the inning
    then has ten wickets or twenty overs, or is the second inning and has
    passed the first inning's total; it completes the match exactly when it
    completes the second inning; otherwise the match is Live. *)
Theorem delivery_completes_exactly_when db mid d dl db' first inning' match' :
  reachable db ->
  record_delivery db mid d = Return (Some dl) db' ->
  first_inning db' mid = Some first ->
  get_inning db' (DeliveryCreate.inning_id d) = Some inning' ->
  get_match_by_id db' mid = Some match' ->
  (Inning.is_completed inning' = true <->
   natural_end inning'
   \/ (Inning.id inning' <> Inning.id first
       /\ Inning.total_runs first < Inning.total_runs inning'))
  /\ (Match.status match' = COMPLETED <->
      Inning.id inning' <> Inning.id first
      /\ Inning.is_completed inning' = true)
  /\ (Match.status match' = COMPLETED \/ Match.status match' = LIVE).
Proof.
  intros Hr H Hfirst Hget Hgm.
  pose proof (reachable_consistent db Hr) as Hc.
  pose proof (reachable_coherent db Hr) as Hh.
  destruct (scored_view db mid d dl db' Hc H) as (inning & match_ & a & b & S).
  rewrite (scoring_first_after _ _ _ _ _ _ _ _ S) in Hfirst.
  destruct S as [S1 S2 S3 S4 S5 S6 S7 S8 S9 S10 S11 S12 S13 S14 S15 S16 S17].
  rewrite S13 in Hget. injection Hget as <-.
  rewrite S14 in Hgm. injection Hgm as <-.
  unfold scored_inning, scored_match, natural_end in *.
  set (i1 := update_inning_score inning d) in *.
  assert (Hi1 : Inning.id i1 = Inning.id inning
                /\ Inning.is_completed i1 = false).
  { unfold i1. rewrite update_inning_score_eq. simpl. auto. }
  destruct Hi1 as [Hi1 Hopen].
  destruct (check_end_fields a i1 (mark_live match_))
    as (G1 & _ & _ & _ & G5 & G6 & G7 & _ & G9).
  destruct (mark_live_facts match_) as (_ & Hw' & _).
  destruct (mark_live_status match_) as (L1 & L2 & L3).
  specialize (L3 S4).
  pose proof S3 as Hf. unfold get_match_by_id in Hf.
  apply find_match_id in Hf. destruct Hf as [_ Hmin].
  destruct (h_status db Hh match_ Hmin) as [Hab _]. specialize (L2 Hab).
  assert (Hlive : Match.status (mark_live match_) = LIVE).
  { destruct (Match.status (mark_live match_)); congruence. }
  assert (Hnat : (10 <=? Inning.wickets i1) || (20 <=? Inning.overs_bowled i1)
                 = true
                 <-> 10 <= Inning.wickets i1 \/ 20 <= Inning.overs_bowled i1).
  { rewrite orb_true_iff, !Z.leb_le. tauto. }
  destruct (Inning.id a =? Inning.id inning) eqn:Ea;
    injection Hfirst as <-;
    rewrite ?G9, ?G5, ?G6, ?G7, ?G1, ?Hopen; unfold inning_over;
    rewrite check_end_snd, Hw', S5; cbn [truthy orb]; rewrite ?Hi1.
  - apply Z.eqb_eq in Ea. rewrite <- Ea, Z.eqb_refl. cbn [negb andb].
    rewrite orb_false_r, Hlive.
    split; [rewrite Hnat; tauto|]. split; [|auto].
    split; [discriminate|tauto].
  - apply Z.eqb_neq in Ea.
    assert (Ea' : (Inning.id inning =? Inning.id a) = false)
      by (apply Z.eqb_neq; congruence).
    rewrite Ea'. cbn [negb andb].
    destruct (Inning.total_runs a <? Inning.total_runs i1) eqn:E1.
    + apply Z.ltb_lt in E1. rewrite orb_true_r. simpl.
      split; [split; auto|]. split; [|auto].
      split; auto.
    + apply Z.ltb_ge in E1. rewrite orb_false_r.
      destruct ((10 <=? Inning.wickets i1)
                || (20 <=? Inning.overs_bowled i1)) eqn:En.
      * assert (Hn := proj1 Hnat eq_refl). cbn [Match.status].
        split; [split; auto|]. split; [|left; reflexivity].
        split; auto.
      * assert (Hn : ~ (10 <= Inning.wickets i1
                        \/ 20 <= Inning.overs_bowled i1)).
        { intros Hn. apply Hnat in Hn. discriminate. }
        rewrite Hlive.
        split; [split; [discriminate|intros [Hx|[_ Hx]]; [tauto|lia]]|].
        split; [|auto].
        split; [discriminate|intros [_ Hx]; discriminate].
Qed.

Lemma delivery_completes_exactly_when_witness :
  Inning.is_completed (Inning.mk 2 1 2 1 4 0 0 1 false) = true <->
  natural_end (Inning.mk 2 1 2 1 4 0 0 1 false)
  \/ (Inning.id (Inning.mk 2 1 2 1 4 0 0 1 false)
      <> Inning.id (Inning.mk 1 1 1 2 10 10 1 4 true)
      /\ Inning.total_runs (Inning.mk 1 1 1 2 10 10 1 4 true)
         < Inning.total_runs (Inning.mk 2 1 2 1 4 0 0 1 false)).
Proof.
  destruct (delivery_completes_exactly_when (run first_all_out) 1
              (ball 2 4 false false)
              (delivery_row (run first_all_out) (ball 2 4 false false))
              (db_after (run first_all_out)
                 (record_delivery (run first_all_out) 1
                    (ball 2 4 false false)))
              (Inning.mk 1 1 1 2 10 10 1 4 true)
              (Inning.mk 2 1 2 1 4 0 0 1 false)
              (Match.mk 1 0 None LIVE (Some 1) 1 2 (Some 1) (Some BAT) None))
    as [H _].
  - exists first_all_out. reflexivity.
  - vm_compute. reflexivity.
  - vm_compute. reflexivity.
  - vm_compute. reflexivity.
  - vm_compute. reflexivity.
  - exact H.
Defined.

(** ** Match rows along a history *)

Lemma keeps_refl m : keeps m m.
Proof. unfold keeps. repeat split; auto. Qed.

Lemma keeps_trans m1 m2 m3 : keeps m1 m2 -> keeps m2 m3 -> keeps m1 m3.
Proof.
  unfold keeps.
  intros (A1 & A2 & A3 & A4 & A5 & A6 & A7 & A8 & A9)
         (B1 & B2 & B3 & B4 & B5 & B6 & B7 & B8 & B9).
  repeat split; try congruence.
  - destruct (A7 H) as [E1 E2]. rewrite <- E1 in H.
    destruct (B7 H). congruence.
  - destruct (A7 H) as [E1 E2]. rewrite <- E1 in H.
    destruct (B7 H). congruence.
  - auto.
  - intros Hc. specialize (A9 Hc). subst m2. auto.
Qed.

Lemma scored_match_fixed first inning d match_ :
  Match.match_date (scored_match first inning d match_)
  = Match.match_date match_
  /\ Match.venue (scored_match first inning d match_) = Match.venue match_
  /\ Match.tournament_id (scored_match first inning d match_)
     = Match.tournament_id match_.
Proof.
  unfold scored_match. rewrite check_end_snd. unfold mark_live.
  repeat match goal with
         | |- context [if ?c then _ else _] => destruct c
         end; simpl; auto.
Qed.

Lemma match_step db o mid m :
  reachable db -> get_match_by_id db mid = Some m ->
  exists m', get_match_by_id (run_op db o) mid = Some m' /\ keeps m m'.
Proof.
  intros Hr Hg.
  pose proof (reachable_consistent db Hr) as Hc.
  pose proof (reachable_coherent db Hr) as Hh.
  pose proof Hg as Hfound. unfold get_match_by_id in Hfound.
  apply find_match_id in Hfound. destruct Hfound as [Hid Hin].
  destruct (run_op_effect db o Hc)
    as [Hm Hi Hd Hs1 Hs2 Hs3 Ht
       |m0 Hdb Hid0 Hst0 Htw Htd Hw Ht1 Ht2
       |mid0 t stored m' Hg0 Hnil Hm' Hdb
       |mid0 d inning match_ a b S Hdb].
  - exists m. unfold get_match_by_id. rewrite Hm.
    split; [exact Hg|apply keeps_refl].
  - exists m. rewrite Hdb. unfold get_match_by_id. simpl.
    split; [apply find_app_found; exact Hg|apply keeps_refl].
  - rewrite Hdb. unfold get_match_by_id. simpl. rewrite find_update_match.
    pose proof Hg0 as Hf0. unfold get_match_by_id in Hf0.
    apply find_match_id in Hf0. destruct Hf0 as [Hid0 Hin0].
    assert (Hid' : Match.id m' = mid0) by (subst m'; exact Hid0).
    rewrite Hid'. destruct (mid =? mid0) eqn:E.
    + apply Z.eqb_eq in E. clear Hid'. rewrite <- E in Hg0, Hnil.
      rewrite Hg in Hg0.
      injection Hg0 as <-. unfold get_match_by_id in Hg. rewrite Hg.
      exists m'. split; [reflexivity|].
      destruct (h_toss db Hh m Hin) as [Hnone _].
      rewrite Hid in Hnone. destruct (Hnone Hnil) as [Htw _].
      subst m'. unfold keeps. simpl. repeat split; auto; try congruence.
      intros Hst. exfalso.
      apply (completed_has_innings db m Hh Hin Hst). congruence.
    + exists m. split; [exact Hg|apply keeps_refl].
  - rewrite Hdb. unfold get_match_by_id. simpl.
    rewrite find_update_match, scored_match_id.
    pose proof (sc_match _ _ _ _ _ _ _ _ S) as Hg0.
    pose proof Hg0 as Hf0. unfold get_match_by_id in Hf0.
    apply find_match_id in Hf0. destruct Hf0 as [Hid0 _].
    rewrite Hid0. destruct (mid =? mid0) eqn:E.
    + apply Z.eqb_eq in E. rewrite <- E in Hg0. rewrite Hg in Hg0.
      injection Hg0 as <-. unfold get_match_by_id in Hg. rewrite Hg.
      exists (scored_match a inning d m). split; [reflexivity|].
      destruct (scored_match_fields a inning d m) as (M1 & M2 & M3 & M4).
      destruct (scored_match_fixed a inning d m) as (N1 & N2 & N3).
      pose proof (scored_match_id a inning d m) as M0.
      destruct (mark_live_status m) as (L1 & _).
      unfold keeps. repeat split; auto.
      * intros _ Hs.
        destruct (scored_match_status a inning d m) as [Es|Es];
          rewrite Es in Hs; [discriminate|contradiction].
      * intros Hst. exfalso. apply (sc_live _ _ _ _ _ _ _ _ S). exact Hst.
    + exists m. split; [exact Hg|apply keeps_refl].
Qed.

(** X19. A match keeps its identity: whatever operations follow a history,
    each of its matches is still found under its id with the same date,
    venue, tournament and teams; a toss that was recorded is never changed,
    a match that has started never returns to Scheduled, and a Completed
    match is found exactly as it was. *)
Theorem match_keeps_identity ops more mid m :
  get_match_by_id (run ops) mid = Some m ->
  exists m', get_match_by_id (run (ops ++ more)) mid = Some m' /\ keeps m m'.
Proof.
  rewrite run_app. generalize (reachable_run ops). generalize (run ops) as db.
  revert m. induction more as [|o more IH]; intros m db Hr Hg; simpl.
  - exists m. split; [exact Hg|apply keeps_refl].
  - destruct (match_step db o mid m Hr Hg) as (m1 & Hg1 & K1).
    destruct (IH m1 (run_op db o) (reachable_step db o Hr) Hg1)
      as (m2 & Hg2 & K2).
    exists m2. split; [exact Hg2|]. apply (keeps_trans m m1 m2); assumption.
Qed.

Lemma match_keeps_identity_witness :
  exists m',
    get_match_by_id (run (after_toss ++ [Toss 1 (TossData.mk 2 FIELD);
                                         Score 1 (ball 1 1 false false)])) 1
    = Some m'
    /\ keeps (Match.mk 1 0 None SCHEDULED (Some 1) 1 2 (Some 1) (Some BAT)
                None) m'.
Proof.
  apply (match_keeps_identity after_toss
           [Toss 1 (TossData.mk 2 FIELD); Score 1 (ball 1 1 false false)] 1).
  vm_compute. reflexivity.
Defined.

Lemma run_op_new_row db o :
  deliveries (run_op db o) = deliveries db
  \/ exists d, deliveries (run_op db o) = deliveries db ++ [delivery_row db d].
Proof.
  destruct o as [t p r|sm si sd|m tid|mid t|mid d]; simpl; auto.
  - unfold create_match.
    match goal with
    | |- context [if ?c then _ else _] => destruct c
    end; simpl; auto.
  - destruct (update_match_toss db mid t) as [[m'|] db'|e] eqn:E; simpl;
      [|apply toss_none_unchanged in E; subst; auto|auto].
    apply update_match_toss_inv in E.
    destruct E as (stored & _ & _ & _ & _ & ->). auto.
  - destruct (record_delivery db mid d) as [[dl|] db'|e] eqn:E; simpl;
      [|apply score_none_unchanged in E; subst; auto|auto].
    apply record_delivery_inv in E.
    destruct E as (inning & match_ & first & _ & _ & _ & _ & _ & _ & -> & ->).
    right. exists d. reflexivity.
Qed.

(** X20. The kind of an extra is never stored: on every reachable database
    every delivery row has [extra_type] null, extras included. *)
Theorem extra_type_is_never_stored db dl :
  reachable db -> In dl (deliveries db) -> Delivery.extra_type dl = None.
Proof.
  intros Hr. revert dl. revert db Hr.
  apply (reachable_induction
           (fun db => forall dl, In dl (deliveries db) ->
                                 Delivery.extra_type dl = None)).
  - intros dl [].
  - intros db o _ IH dl Hin.
    destruct (run_op_new_row db o) as [E|(d & E)]; rewrite E in Hin.
    + apply IH. exact Hin.
    + apply in_app_or in Hin. destruct Hin as [Hin|[<-|[]]].
      * apply IH. exact Hin.
      * reflexivity.
Qed.

Lemma extra_type_is_never_stored_witness :
  Delivery.extra_type (Delivery.mk 2 1 1 2 0 true None false None) = None.
Proof.
  apply (extra_type_is_never_stored
           (run (after_toss ++ [Score 1 (ball 1 4 false false);
                                Score 1 (ball 1 0 false true)]))).
  - exists (after_toss ++ [Score 1 (ball 1 4 false false);
                           Score 1 (ball 1 0 false true)]). reflexivity.
  - vm_compute. right. left. reflexivity.
Defined.
